(** * CodeConnect: the graph builder of [src/graph.js]

    A shallow embedding of the [GraphBuilder] class and the properties of
    the graph it returns.  JavaScript strings are [string]s, the [nodeMap]
    ([Map] from key strings to node ids) is a [gmap string string], arrays
    are lists, and the methods of the class live in a small state and
    exception monad over the fields of the builder object. *)

From Stdlib Require Import Ascii String NArith DecimalString DecimalN.
From stdpp Require Import base option list strings gmap.

Local Open Scope stdpp_scope.

(** ** JavaScript strings *)

Module JS.

(** [Boolean(s)]: every string but the empty one is truthy. *)
Definition truthy (s : string) : bool := negb (String.eqb s "").

(** [s || d] on strings. *)
Definition orElse (s d : string) : string := if truthy s then s else d.

(** [`${n}`] for a non-negative integer: its decimal digits. *)
Definition numToString (n : N) : string :=
  NilEmpty.string_of_uint (N.to_uint n).

(** [s.endsWith(suffix)] *)
Fixpoint endsWith (s suffix : string) : bool :=
  String.eqb s suffix ||
  match s with
  | EmptyString => false
  | String _ s' => endsWith s' suffix
  end.

(** [s.includes(sub)] *)
Fixpoint includes (s sub : string) : bool :=
  String.prefix sub s ||
  match s with
  | EmptyString => false
  | String _ s' => includes s' sub
  end.

(** A [Set] of strings, in insertion order. *)
Definition setAdd (x : string) (s : list string) : list string :=
  if bool_decide (x ∈ s) then s else s ++ [x].

(** [new Map(entries)], reduced to its key sequence: a key keeps the
    position of its first insertion. *)
Definition mapKeys (keys : list string) : list string :=
  fold_left (fun m k => setAdd k m) keys [].

End JS.

(** ** Node's [path] module, POSIX flavour

    The module is a library the repository calls, not part of it; the
    functions below follow its POSIX implementation. *)

Module Path.

Definition isSep (c : ascii) : bool := Ascii.eqb c "/".

(** Number of separators of a path: its nesting depth. *)
Definition depth (p : string) : nat :=
  length (List.filter isSep (list_ascii_of_string p)).

(** The backward scan of [dirname] over the characters of index [>= 1],
    given from the last one: it stops at the first separator that follows
    a non-separator and returns what is left of the scan. *)
Fixpoint dirnameScan (matchedSlash : bool) (l : list ascii)
  : option (list ascii) :=
  match l with
  | [] => None
  | c :: l' =>
      if isSep c
      then if matchedSlash then dirnameScan true l' else Some l'
      else dirnameScan false l'
  end.

Definition dirname (p : string) : string :=
  match list_ascii_of_string p with
  | [] => "."
  | c0 :: t =>
      match dirnameScan true (rev t) with
      | None => if isSep c0 then "/" else "."
      | Some r =>
          if isSep c0 && bool_decide (r = []) then "//"
          else string_of_list_ascii (c0 :: rev r)
      end
  end.

Fixpoint dropSeps (l : list ascii) : list ascii :=
  match l with
  | c :: l' => if isSep c then dropSeps l' else l
  | [] => []
  end.

Fixpoint takeName (l : list ascii) : list ascii :=
  match l with
  | c :: l' => if isSep c then [] else c :: takeName l'
  | [] => []
  end.

(** [basename(p)]: the last run of characters that are not separators. *)
Definition basename (p : string) : string :=
  string_of_list_ascii
    (rev (takeName (dropSeps (rev (list_ascii_of_string p))))).

(** The pieces of a path between its separators. *)
Fixpoint segmentsGo (cur : list ascii) (l : list ascii) : list string :=
  match l with
  | [] => [string_of_list_ascii (rev cur)]
  | c :: l' =>
      if isSep c
      then string_of_list_ascii (rev cur) :: segmentsGo [] l'
      else segmentsGo (c :: cur) l'
  end.

Definition segments (p : string) : list string :=
  segmentsGo [] (list_ascii_of_string p).

(** [normalizeString]: empty and [.] segments vanish, [..] removes the
    segment before it, or stays when there is none to remove and the
    path is relative.  [stack] holds the result so far, last segment
    first. *)
Fixpoint normalizeSegments (allowAboveRoot : bool)
    (stack : list string) (segs : list string) : list string :=
  match segs with
  | [] => rev stack
  | seg :: rest =>
      if String.eqb seg "" || String.eqb seg "." then
        normalizeSegments allowAboveRoot stack rest
      else if String.eqb seg ".." then
        match stack with
        | top :: stack' =>
            if String.eqb top ".." then
              normalizeSegments allowAboveRoot
                (if allowAboveRoot then seg :: stack else stack) rest
            else normalizeSegments allowAboveRoot stack' rest
        | [] =>
            normalizeSegments allowAboveRoot
              (if allowAboveRoot then [seg] else []) rest
        end
      else normalizeSegments allowAboveRoot (seg :: stack) rest
  end.

Definition isAbsolute (p : string) : bool :=
  match p with String c _ => isSep c | EmptyString => false end.

Definition hasTrailingSep (p : string) : bool :=
  match rev (list_ascii_of_string p) with
  | c :: _ => isSep c
  | [] => false
  end.

Definition normalize (p : string) : string :=
  if String.eqb p "" then "."
  else
    let body :=
      String.concat "/"
        (normalizeSegments (negb (isAbsolute p)) [] (segments p)) in
    if String.eqb body "" then
      if isAbsolute p then "/"
      else if hasTrailingSep p then "./" else "."
    else
      let body := if hasTrailingSep p then body +:+ "/" else body in
      if isAbsolute p then "/" +:+ body else body.

(** [join(a, b)] for a non-empty second argument. *)
Definition join (a b : string) : string :=
  normalize (if String.eqb a "" then b else a +:+ "/" +:+ b).

(** [resolve(p)] against the working directory [cwd], as the list of
    segments of the absolute path it returns. *)
Definition resolveSegments (cwd p : string) : list string :=
  normalizeSegments false []
    (segments (if isAbsolute p then p else cwd +:+ "/" +:+ p)).

Fixpoint dropCommon (a b : list string) : list string * list string :=
  match a, b with
  | x :: a', y :: b' =>
      if String.eqb x y then dropCommon a' b' else (a, b)
  | _, _ => (a, b)
  end.

(** [relative(from, to)]: one [..] per segment of [from] below the
    common ancestor, then the segments of [to] below it. *)
Definition relative (cwd from to : string) : string :=
  if String.eqb from to then ""
  else
    let '(up, down) :=
      dropCommon (resolveSegments cwd from) (resolveSegments cwd to) in
    String.concat "/" (((fun _ => "..") <$> up) ++ down).

End Path.

(** ** The data model *)

(** A function found in a file: [{name, type, line, endLine, params}]. *)
Record Func := {
  func_name : string;
  func_type : string;
  func_line : N;
  func_endLine : N;
  func_params : option (list string)
}.

(** An import statement: [{source, imported, line}]. *)
Record Import := {
  imp_source : string;
  imp_imported : string;
  imp_line : N
}.

(** An export: [{name, type, line}]. *)
Record Export := {
  exp_name : string;
  exp_type : string;
  exp_line : N
}.

(** A call site: [{name, line}]. *)
Record Call := {
  call_name : string;
  call_line : N
}.

(** The record the parser hands over for one file.  An array field that
    is missing from the object is [None] ([undefined]). *)
Record FileRecord := {
  file_path : string;
  file_language : string;
  file_functions : option (list Func);
  file_imports : option (list Import);
  file_exports : option (list Export);
  file_calls : option (list Call)
}.

Inductive NodeType := folder | file | function.
Inductive EdgeType := contains | imports | calls.

Global Instance NodeType_eq_dec : EqDecision NodeType.
Proof. solve_decision. Defined.
Global Instance EdgeType_eq_dec : EqDecision EdgeType.
Proof. solve_decision. Defined.

Definition nodeTypeName (t : NodeType) : string :=
  match t with
  | folder => "folder"
  | file => "file"
  | function => "function"
  end.

Definition edgeTypeName (t : EdgeType) : string :=
  match t with
  | contains => "contains"
  | imports => "imports"
  | calls => "calls"
  end.

(** The attributes a node carries besides [id], [label], [type] and
    [path]. *)
Inductive NodeExtra :=
| FolderExtra (relativePath : string)
| FileExtra (relativePath language : string)
    (functionCount importCount exportCount : nat)
| FunctionExtra (line endLine : N) (functionType : string)
    (params : list string).

(** [node.data] *)
Record NodeData := {
  node_id : string;
  node_label : string;
  node_type : NodeType;
  node_path : string;
  node_extra : NodeExtra
}.

(** The argument of [addEdge]. *)
Record EdgeSpec := {
  spec_source : string;
  spec_target : string;
  spec_type : EdgeType;
  spec_label : string
}.

(** [edge.data] *)
Record EdgeData := {
  edge_id : string;
  edge_source : string;
  edge_target : string;
  edge_type : EdgeType;
  edge_label : string
}.

Record NodeCounts := {
  count_folder : nat;
  count_file : nat;
  count_function : nat
}.

Record EdgeCounts := {
  count_contains : nat;
  count_imports : nat;
  count_calls : nat
}.

(** A [stats] object; a property the object does not have is [None]. *)
Record Stats := {
  totalNodes : nat;
  totalEdges : nat;
  nodesByType : option NodeCounts;
  edgesByType : option EdgeCounts
}.

(** What [getGraphData] and [filterByNodeType] return. *)
Record GraphData := {
  graph_nodes : list NodeData;
  graph_edges : list EdgeData;
  graph_stats : Stats
}.

(** The fields of a [GraphBuilder] object. *)
Record GraphBuilder := {
  nodes : list NodeData;
  edges : list EdgeData;
  nodeIdCounter : N;
  nodeMap : gmap string string
}.

(** What the builder reads from its surroundings: the first workspace
    folder of the editor, if any, and the working directory of the
    process (which [path.relative] resolves relative paths against). *)
Record Env := {
  workspaceFolder : option string;
  cwd : string
}.

(** ** Methods: state and exceptions *)

(** A method call on a builder either returns a value and leaves the
    builder in a new state, or throws a [TypeError]. *)
Inductive Outcome (A : Type) :=
| Normal (a : A) (this : GraphBuilder)
| TypeError (this : GraphBuilder).
Arguments Normal {A} a this.
Arguments TypeError {A} this.

Definition M (A : Type) : Type := GraphBuilder -> Outcome A.

Definition ret {A} (a : A) : M A := fun this => Normal a this.

Definition bind {A B} (m : M A) (k : A -> M B) : M B :=
  fun this =>
    match m this with
    | Normal a this' => k a this'
    | TypeError this' => TypeError this'
    end.

Notation "x <- m ;; k" := (bind m (fun x => k))
  (at level 100, m at next level, right associativity).
Notation "m ;;; k" := (bind m (fun _ => k))
  (at level 100, right associativity).

(** The builder a call leaves behind, whether it returned or threw. *)
Definition after {A} (o : Outcome A) : GraphBuilder :=
  match o with
  | Normal _ this => this
  | TypeError this => this
  end.

(** Reading a property ([.length], [.forEach]) of an array field: a
    [TypeError] when the field is [undefined]. *)
Definition field {A} (o : option (list A)) : M (list A) :=
  fun this =>
    match o with
    | Some l => Normal l this
    | None => TypeError this
    end.

(** [l.forEach(f)] *)
Fixpoint forEach {A} (f : A -> M unit) (l : list A) : M unit :=
  match l with
  | [] => ret tt
  | x :: l' => f x ;;; forEach f l'
  end.

(** [reset()] *)
Definition reset : M unit :=
  fun _ =>
    Normal tt {| nodes := []; edges := []; nodeIdCounter := 0;
                 nodeMap := ∅ |}.

(** [getNodeId(type, identifier)] *)
Definition getNodeId (type : NodeType) (identifier : string) : M string :=
  fun this =>
    let key := nodeTypeName type +:+ ":" +:+ identifier in
    match nodeMap this !! key with
    | Some id => Normal id this
    | None =>
        Normal
          (nodeTypeName type +:+ "-" +:+
             JS.numToString (nodeIdCounter this))
          {| nodes := nodes this; edges := edges this;
             nodeIdCounter := (nodeIdCounter this + 1)%N;
             nodeMap := nodeMap this |}
    end.

(** The key [addNode] files a node under:
    [`${nodeData.type}:${nodeData.path || nodeData.id}`]. *)
Definition nodeKey (nodeData : NodeData) : string :=
  nodeTypeName (node_type nodeData) +:+ ":" +:+
  JS.orElse (node_path nodeData) (node_id nodeData).

(** [addNode(nodeData)] *)
Definition addNode (nodeData : NodeData) : M string :=
  fun this =>
    let add :=
      Normal (node_id nodeData)
        {| nodes := nodes this ++ [nodeData]; edges := edges this;
           nodeIdCounter := nodeIdCounter this;
           nodeMap := <[nodeKey nodeData := node_id nodeData]>
                        (nodeMap this) |} in
    match nodeMap this !! nodeKey nodeData with
    | Some existingId =>
        if JS.truthy existingId then Normal existingId this else add
    | None => add
    end.

(** [`${source}-${target}-${type}`] *)
Definition edgeKey (source target : string) (type : EdgeType) : string :=
  source +:+ "-" +:+ target +:+ "-" +:+ edgeTypeName type.

(** [addEdge(edgeData)] *)
Definition addEdge (edgeData : EdgeSpec) : M unit :=
  fun this =>
    let key :=
      edgeKey (spec_source edgeData) (spec_target edgeData)
        (spec_type edgeData) in
    if existsb
         (fun e =>
            String.eqb (edgeKey (edge_source e) (edge_target e) (edge_type e))
              key)
         (edges this)
    then Normal tt this
    else
      Normal tt
        {| nodes := nodes this;
           edges := edges this ++
             [{| edge_id :=
                   "edge-" +:+ JS.numToString (N.of_nat (length (edges this)));
                 edge_source := spec_source edgeData;
                 edge_target := spec_target edgeData;
                 edge_type := spec_type edgeData;
                 edge_label := JS.orElse (spec_label edgeData) "" |}];
           nodeIdCounter := nodeIdCounter this;
           nodeMap := nodeMap this |}.

(** [this.nodeMap.has(key)] *)
Definition nodeMapHas (key : string) : M bool :=
  fun this => Normal (bool_decide (is_Some (nodeMap this !! key))) this.

(** [getNodeCountsByType()]: the body of its loop, then the method. *)
Definition countNode (counts : NodeCounts) (node : NodeData) : NodeCounts :=
  match node_type node with
  | folder =>
      {| count_folder := S (count_folder counts);
         count_file := count_file counts;
         count_function := count_function counts |}
  | file =>
      {| count_folder := count_folder counts;
         count_file := S (count_file counts);
         count_function := count_function counts |}
  | function =>
      {| count_folder := count_folder counts;
         count_file := count_file counts;
         count_function := S (count_function counts) |}
  end.

Definition getNodeCountsByType (ns : list NodeData) : NodeCounts :=
  fold_left countNode ns
    {| count_folder := 0; count_file := 0; count_function := 0 |}.

(** [getEdgeCountsByType()]: the body of its loop, then the method. *)
Definition countEdge (counts : EdgeCounts) (edge : EdgeData) : EdgeCounts :=
  match edge_type edge with
  | contains =>
      {| count_contains := S (count_contains counts);
         count_imports := count_imports counts;
         count_calls := count_calls counts |}
  | imports =>
      {| count_contains := count_contains counts;
         count_imports := S (count_imports counts);
         count_calls := count_calls counts |}
  | calls =>
      {| count_contains := count_contains counts;
         count_imports := count_imports counts;
         count_calls := S (count_calls counts) |}
  end.

Definition getEdgeCountsByType (es : list EdgeData) : EdgeCounts :=
  fold_left countEdge es
    {| count_contains := 0; count_imports := 0; count_calls := 0 |}.

(** [getGraphData()] *)
Definition getGraphData : M GraphData :=
  fun this =>
    Normal
      {| graph_nodes := nodes this;
         graph_edges := edges this;
         graph_stats :=
           {| totalNodes := length (nodes this);
              totalEdges := length (edges this);
              nodesByType := Some (getNodeCountsByType (nodes this));
              edgesByType := Some (getEdgeCountsByType (edges this)) |} |}
      this.

(** [filterByNodeType(types)] *)
Definition filterByNodeType (types : list string) : M GraphData :=
  fun this =>
    let filteredNodes :=
      filter (fun node => nodeTypeName (node_type node) ∈ types)
        (nodes this) in
    let nodeIds := node_id <$> filteredNodes in
    let filteredEdges :=
      filter
        (fun edge => edge_source edge ∈ nodeIds /\ edge_target edge ∈ nodeIds)
        (edges this) in
    Normal
      {| graph_nodes := filteredNodes;
         graph_edges := filteredEdges;
         graph_stats :=
           {| totalNodes := length filteredNodes;
              totalEdges := length filteredEdges;
              nodesByType := None;
              edgesByType := None |} |}
      this.

(** ** Building the graph *)

Section Build.

Variable env : Env.

(** [workspaceFolder], when it is a truthy string. *)
Definition workspace : option string :=
  match workspaceFolder env with
  | Some ws => if JS.truthy ws then Some ws else None
  | None => None
  end.

(** The [while] loop of [buildFolderNodes], [fuel] bounding the number
    of times its condition is evaluated; [None] when the loop is still
    running after that. *)
Fixpoint ancestry (fuel : nat) (ws currentPath : string)
    (folders : list string) : option (list string) :=
  match fuel with
  | O => None
  | S fuel' =>
      if bool_decide (currentPath ≠ ws)
         && bool_decide (currentPath ≠ Path.dirname currentPath)
      then ancestry fuel' ws (Path.dirname currentPath)
             (JS.setAdd currentPath folders)
      else Some folders
  end.

(** The loop run on one file path: the depth of the path bounds it
    ([ancestry_terminates] below), so the default is never taken. *)
Definition addAncestors (ws : string) (folders : list string)
    (p : string) : list string :=
  default folders
    (ancestry (S (Path.depth p)) ws (Path.dirname p) folders).

(** [buildFolderNodes(files)] *)
Definition buildFolderNodes (files : list FileRecord) : M unit :=
  match workspace with
  | None => ret tt
  | Some ws =>
      let folders :=
        fold_left (addAncestors ws) (file_path <$> files) [] in
      forEach
        (fun folderPath =>
           let relativePath := Path.relative (cwd env) ws folderPath in
           let folderName := Path.basename folderPath in
           id <- getNodeId folder folderPath ;;
           addNode
             {| node_id := id; node_label := folderName;
                node_type := folder; node_path := folderPath;
                node_extra :=
                  FolderExtra (JS.orElse relativePath ".") |} ;;;
           ret tt)
        folders
  end.

(** The body of the [forEach] over the functions of a file in
    [buildFileNodes]. *)
Definition buildFunctionNode (f : FileRecord) (fileNodeId : string)
    (func : Func) : M unit :=
  id <- getNodeId function
          (file_path f +:+ ":" +:+ func_name func +:+ ":" +:+
             JS.numToString (func_line func)) ;;
  funcNodeId <-
    addNode
      {| node_id := id; node_label := func_name func;
         node_type := function; node_path := file_path f;
         node_extra :=
           FunctionExtra (func_line func) (func_endLine func)
             (func_type func) (default [] (func_params func)) |} ;;
  addEdge
    {| spec_source := fileNodeId; spec_target := funcNodeId;
       spec_type := contains; spec_label := "" |}.

(** The body of the [forEach] over the files in [buildFileNodes]. *)
Definition buildFileNode (f : FileRecord) : M unit :=
  let fileName := Path.basename (file_path f) in
  let relativePath :=
    match workspace with
    | Some ws => Path.relative (cwd env) ws (file_path f)
    | None => file_path f
    end in
  id <- getNodeId file (file_path f) ;;
  functions <- field (file_functions f) ;;
  imports <- field (file_imports f) ;;
  exports <- field (file_exports f) ;;
  fileNodeId <-
    addNode
      {| node_id := id; node_label := fileName; node_type := file;
         node_path := file_path f;
         node_extra :=
           FileExtra relativePath (file_language f) (length functions)
             (length imports) (length exports) |} ;;
  let parentFolder := Path.dirname (file_path f) in
  parentNodeId <- getNodeId folder parentFolder ;;
  has <- nodeMapHas ("folder:" +:+ parentFolder) ;;
  (if has
   then addEdge
          {| spec_source := parentNodeId; spec_target := fileNodeId;
             spec_type := contains; spec_label := "" |}
   else ret tt) ;;;
  functions <- field (file_functions f) ;;
  forEach (buildFunctionNode f fileNodeId) functions.

(** [buildFileNodes(files)] *)
Definition buildFileNodes (files : list FileRecord) : M unit :=
  forEach buildFileNode files.

(** [resolveImportTarget(importSource, filePathMap)], the map given by
    its keys in iteration order; [None] is [null]. *)
Definition extensions : list string := [".js"; ".jsx"; ".ts"; ".tsx"; ".py"].

Fixpoint tryExtensions (importSource : string) (filePathMap : list string)
    (exts : list string) : option string :=
  match exts with
  | [] => None
  | ext :: exts' =>
      let withExt := importSource +:+ ext in
      if bool_decide (withExt ∈ filePathMap) then Some withExt
      else
        let indexPath := Path.join importSource ("index" +:+ ext) in
        if bool_decide (indexPath ∈ filePathMap) then Some indexPath
        else tryExtensions importSource filePathMap exts'
  end.

Definition resolveImportTarget (importSource : string)
    (filePathMap : list string) : M (option string) :=
  if bool_decide (importSource ∈ filePathMap) then
    id <- getNodeId file importSource ;; ret (Some id)
  else
    match tryExtensions importSource filePathMap extensions with
    | Some p => id <- getNodeId file p ;; ret (Some id)
    | None =>
        match
          find
            (fun filePath =>
               JS.endsWith filePath importSource
               || JS.includes filePath importSource)
            filePathMap
        with
        | Some filePath => id <- getNodeId file filePath ;; ret (Some id)
        | None => ret None
        end
    end.

(** The body of the [forEach] over the imports of a file in
    [buildEdges]. *)
Definition buildImportEdge (filePathMap : list string)
    (fileNodeId : string) (imp : Import) : M unit :=
  targetFileNodeId <- resolveImportTarget (imp_source imp) filePathMap ;;
  match targetFileNodeId with
  | Some target =>
      if JS.truthy target then
        addEdge
          {| spec_source := fileNodeId; spec_target := target;
             spec_type := imports;
             spec_label :=
               if String.eqb (imp_imported imp) "*" then ""
               else imp_imported imp |}
      else ret tt
  | None => ret tt
  end.

(** The body of the [forEach] over the calls of a file, for one of its
    functions. *)
Definition buildCallEdge (f : FileRecord) (functions : list Func)
    (func : Func) (funcNodeId : string) (call : Call) : M unit :=
  if (func_line func <=? call_line call)%N
     && (call_line call <=? func_endLine func)%N
  then
    match
      find (fun g => String.eqb (func_name g) (call_name call)) functions
    with
    | Some targetFunc =>
        targetFuncNodeId <-
          getNodeId function
            (file_path f +:+ ":" +:+ func_name targetFunc +:+ ":" +:+
               JS.numToString (func_line targetFunc)) ;;
        addEdge
          {| spec_source := funcNodeId; spec_target := targetFuncNodeId;
             spec_type := calls; spec_label := "" |}
    | None => ret tt
    end
  else ret tt.

(** The body of the [forEach] over the files in [buildEdges]. *)
Definition buildFileEdges (filePathMap : list string) (f : FileRecord)
  : M unit :=
  fileNodeId <- getNodeId file (file_path f) ;;
  imports <- field (file_imports f) ;;
  forEach (buildImportEdge filePathMap fileNodeId) imports ;;;
  functions <- field (file_functions f) ;;
  forEach
    (fun func =>
       funcNodeId <-
         getNodeId function
           (file_path f +:+ ":" +:+ func_name func +:+ ":" +:+
              JS.numToString (func_line func)) ;;
       calls <- field (file_calls f) ;;
       forEach (buildCallEdge f functions func funcNodeId) calls)
    functions.

(** [buildEdges(files)] *)
Definition buildEdges (files : list FileRecord) : M unit :=
  let filePathMap := JS.mapKeys (file_path <$> files) in
  forEach (buildFileEdges filePathMap) files.

(** [buildGraph(filesMap)], on the values of the map in iteration
    order. *)
Definition buildGraph (files : list FileRecord) : M GraphData :=
  reset ;;;
  match files with
  | [] => getGraphData
  | _ =>
      buildFolderNodes files ;;;
      buildFileNodes files ;;;
      buildEdges files ;;;
      getGraphData
  end.

End Build.

(** ** Sample inputs *)

(** A builder as its constructor leaves it. *)
Definition emptyBuilder : GraphBuilder :=
  {| nodes := []; edges := []; nodeIdCounter := 0; nodeMap := ∅ |}.

(** A workspace opened on the folder [/w]. *)
Definition sampleEnv : Env := {| workspaceFolder := Some "/w"; cwd := "/w" |}.

Definition mkFunc (name : string) (line endLine : N) : Func :=
  {| func_name := name; func_type := "function"; func_line := line;
     func_endLine := endLine; func_params := Some [] |}.

Definition mkFile (p : string) (fs : list Func) (ims : list Import)
    (cs : list Call) : FileRecord :=
  {| file_path := p; file_language := "javascript";
     file_functions := Some fs; file_imports := Some ims;
     file_exports := Some []; file_calls := Some cs |}.

(** A record whose [functions] array is missing. *)
Definition recordWithoutFunctions : FileRecord :=
  {| file_path := "/w/src/b.js"; file_language := "javascript";
     file_functions := None; file_imports := Some [];
     file_exports := Some []; file_calls := Some [] |}.

(** Two files in the folder [/w/src]: [a.js] defines [foo], imports
    [bar] from [b] and calls it; [b.js] defines [bar]. *)
Definition sampleFiles : list FileRecord :=
  [mkFile "/w/src/a.js" [mkFunc "foo" 0 2]
     [{| imp_source := "/w/src/b"; imp_imported := "bar"; imp_line := 0 |}]
     [{| call_name := "bar"; call_line := 1 |}];
   mkFile "/w/src/b.js" [mkFunc "bar" 0 1] [] []].

(** The builder after a build of these two files. *)
Definition sampleBuilder : GraphBuilder :=
  after (buildGraph sampleEnv sampleFiles emptyBuilder).

(** Three files: the importer, an index file under [/w/b] and
    [/w/b.py]. *)
Definition indexFiles : list FileRecord :=
  [mkFile "/w/a.js" []
     [{| imp_source := "/w/b"; imp_imported := "x"; imp_line := 0 |}] [];
   mkFile "/w/b/index.js" [] [] [];
   mkFile "/w/b.py" [] [] []].

(** One file with two functions. *)
Definition twoFunctions : list FileRecord :=
  [mkFile "/w/a.js" [mkFunc "foo" 0 2; mkFunc "bar" 3 4] [] []].

(** One file with a function that calls itself. *)
Definition selfCall : list FileRecord :=
  [mkFile "/w/a.js" [mkFunc "foo" 0 2] []
     [{| call_name := "foo"; call_line := 1 |}]].

(** Two imports between the same two files, with different labels. *)
Definition twoImports : list EdgeSpec :=
  [{| spec_source := "file-0"; spec_target := "file-1";
      spec_type := imports; spec_label := "bar" |};
   {| spec_source := "file-0"; spec_target := "file-1";
      spec_type := imports; spec_label := "baz" |}].

(** A file at the root of the file system, outside the workspace. *)
Definition rootFile : list FileRecord := [mkFile "/x.js" [] [] []].

(** Two files, the path of the first being the function key of [foo] on
    line 0 of the second. *)
Definition collidingFiles : list FileRecord :=
  [mkFile "/w/a:foo:0" [mkFunc "g" 5 6] [] [];
   mkFile "/w/a" [mkFunc "foo" 0 2] [] []].

(** * Properties *)

(** ** Reasoning about method calls *)

(** [returns m]: the call never throws. *)
Definition returns {A} (m : M A) : Prop :=
  forall this, exists a this', m this = Normal a this'.

Lemma returns_ret {A} (a : A) : returns (ret a).
Proof. intros this. by exists a, this. Qed.

Lemma returns_bind {A B} (m : M A) (k : A -> M B) :
  returns m -> (forall a, returns (k a)) -> returns (bind m k).
Proof.
  intros Hm Hk this. unfold bind.
  destruct (Hm this) as (a & this' & ->). apply Hk.
Qed.

Lemma returns_forEach {A} (f : A -> M unit) (l : list A) :
  (forall x, x ∈ l -> returns (f x)) -> returns (forEach f l).
Proof.
  induction l as [|x l IH]; intros Hf; simpl.
  - apply returns_ret.
  - apply returns_bind; [apply Hf; left|intros _; apply IH].
    intros y Hy. apply Hf. by right.
Qed.

Lemma returns_field {A} (l : list A) : returns (field (Some l)).
Proof. intros this. by exists l, this. Qed.

Lemma returns_getNodeId t p : returns (getNodeId t p).
Proof.
  intros this. unfold getNodeId.
  destruct (nodeMap this !! _); eauto.
Qed.

Lemma returns_addNode nd : returns (addNode nd).
Proof.
  intros this. unfold addNode.
  destruct (nodeMap this !! _) as [x|]; [destruct (JS.truthy x)|]; eauto.
Qed.

Lemma returns_addEdge e : returns (addEdge e).
Proof. intros this. unfold addEdge. destruct (existsb _ _); eauto. Qed.

Lemma returns_nodeMapHas k : returns (nodeMapHas k).
Proof. intros this. unfold nodeMapHas. eauto. Qed.

Lemma returns_getGraphData : returns getGraphData.
Proof. intros this. unfold getGraphData. eauto. Qed.

Lemma returns_reset : returns reset.
Proof. intros this. unfold reset. eauto. Qed.

Create HintDb returns.
#[export] Hint Resolve returns_ret returns_field returns_getNodeId
  returns_addNode returns_addEdge returns_nodeMapHas returns_getGraphData
  returns_reset : returns.

Ltac returns_step :=
  lazymatch goal with
  | |- returns (bind (field (Some ?l)) ?k) => change (returns (k l)); cbv beta
  | |- returns (bind _ _) => apply returns_bind; [|intros ?]
  | |- returns (forEach _ _) => apply returns_forEach; intros ? ?
  | |- returns (if ?b then _ else _) => destruct b
  | |- returns (match ?o with Some _ => _ | None => _ end) => destruct o
  | |- returns _ => solve [auto with returns]
  end.

(** When a loop returns, each of its rounds returned. *)
Lemma forEach_Normal {A} (f : A -> M unit) (l : list A) this u this' :
  forEach f l this = Normal u this' ->
  Forall (fun x => exists s s', f x s = Normal tt s') l.
Proof.
  revert this. induction l as [|x l IH]; intros this H; simpl in *.
  - constructor.
  - unfold bind in H. destruct (f x this) as [[] s|s] eqn:Hx; [|done].
    constructor; eauto.
Qed.

(** ** Malformed records (claim C2) *)

(** The arrays [buildGraph] reads from a record: [functions], [imports]
    and [exports] always, [calls] once per function of the file. *)
Definition hasArrays (f : FileRecord) : Prop :=
  is_Some (file_functions f) /\ is_Some (file_imports f) /\
  is_Some (file_exports f) /\
  (file_functions f = Some [] \/ is_Some (file_calls f)).

(** The totals of a [stats] object agree with the arrays next to it. *)
Definition statsMatch (g : GraphData) : Prop :=
  totalNodes (graph_stats g) = length (graph_nodes g) /\
  totalEdges (graph_stats g) = length (graph_edges g) /\
  (exists c, nodesByType (graph_stats g) = Some c /\
     count_folder c + count_file c + count_function c
     = length (graph_nodes g)) /\
  (exists c, edgesByType (graph_stats g) = Some c /\
     count_contains c + count_imports c + count_calls c
     = length (graph_edges g)).

Lemma returns_buildFolderNodes env files :
  returns (buildFolderNodes env files).
Proof.
  unfold buildFolderNodes. destruct (workspace env); repeat returns_step.
Qed.

Lemma returns_buildFunctionNode f fid func :
  returns (buildFunctionNode f fid func).
Proof. unfold buildFunctionNode. repeat returns_step. Qed.

#[export] Hint Resolve returns_buildFolderNodes returns_buildFunctionNode
  : returns.

Lemma returns_buildFileNode env f :
  hasArrays f -> returns (buildFileNode env f).
Proof.
  intros ([fs Hfs] & [ims His] & [es Hes] & _).
  unfold buildFileNode. rewrite Hfs, His, Hes.
  repeat returns_step.
Qed.

Lemma returns_resolveImportTarget src known :
  returns (resolveImportTarget src known).
Proof.
  unfold resolveImportTarget. repeat returns_step.
Qed.

Lemma returns_buildImportEdge known fid imp :
  returns (buildImportEdge known fid imp).
Proof.
  unfold buildImportEdge. returns_step.
  - apply returns_resolveImportTarget.
  - repeat returns_step.
Qed.

Lemma returns_buildCallEdge f fs func fid call :
  returns (buildCallEdge f fs func fid call).
Proof.
  unfold buildCallEdge. repeat returns_step.
Qed.

#[export] Hint Resolve returns_resolveImportTarget returns_buildImportEdge
  returns_buildCallEdge : returns.

Lemma returns_buildFileEdges known f :
  hasArrays f -> returns (buildFileEdges known f).
Proof.
  intros ([fs Hfs] & [ims His] & _ & Hcalls).
  unfold buildFileEdges. rewrite Hfs, His.
  destruct Hcalls as [Hnil|[cs Hcs]].
  - rewrite Hfs in Hnil. simplify_eq. repeat returns_step.
    match goal with H : _ ∈ [] |- _ => by apply elem_of_nil in H end.
  - rewrite Hcs. repeat returns_step.
Qed.

Lemma returns_buildGraph env files :
  Forall hasArrays files -> returns (buildGraph env files).
Proof.
  intros Hall. unfold buildGraph. rewrite Forall_forall in Hall.
  apply returns_bind; [auto with returns|intros _].
  destruct files as [|f files]; [auto with returns|].
  repeat returns_step.
  - unfold buildFileNodes. returns_step. by apply returns_buildFileNode, Hall.
  - unfold buildEdges. returns_step. by apply returns_buildFileEdges, Hall.
Qed.

Lemma buildFileNode_Normal env f s s' :
  buildFileNode env f s = Normal tt s' ->
  is_Some (file_functions f) /\ is_Some (file_imports f) /\
  is_Some (file_exports f).
Proof.
  unfold buildFileNode, bind, field. intros H.
  destruct (getNodeId file (file_path f) s); [|done].
  destruct (file_functions f); [|done].
  destruct (file_imports f); [|done].
  destruct (file_exports f); [|done].
  eauto.
Qed.

Lemma buildFileEdges_Normal known f s s' :
  buildFileEdges known f s = Normal tt s' ->
  file_functions f = Some [] \/ is_Some (file_calls f).
Proof.
  unfold buildFileEdges, bind, field. intros H.
  destruct (getNodeId file (file_path f) s); [|done].
  destruct (file_imports f); [|done].
  destruct (forEach _ _ _); [|done].
  destruct (file_functions f) as [[|func fs]|]; [by left| |done].
  right. simpl in H. unfold bind in H.
  destruct (getNodeId function _ _); [|done].
  destruct (file_calls f); [eauto|done].
Qed.

Lemma buildGraph_Normal env files this g this' :
  buildGraph env files this = Normal g this' -> Forall hasArrays files.
Proof.
  unfold buildGraph, bind, reset. intros H.
  destruct files as [|f0 files]; [constructor|].
  set (fs := f0 :: files) in *. clearbody fs.
  destruct (buildFolderNodes env fs _) as [[] s1|]; [|done].
  destruct (buildFileNodes env fs s1) as [[] s2|] eqn:Hn; [|done].
  destruct (buildEdges fs s2) as [[] s3|] eqn:He; [|done].
  apply forEach_Normal in Hn, He. rewrite Forall_forall in *.
  intros f Hf.
  destruct (Hn f Hf) as (? & ? & Hn'%buildFileNode_Normal).
  destruct (He f Hf) as (? & ? & He'%buildFileEdges_Normal).
  unfold hasArrays. tauto.
Qed.

Lemma countNode_sum ns c :
  let c' := fold_left countNode ns c in
  count_folder c' + count_file c' + count_function c'
  = count_folder c + count_file c + count_function c + length ns.
Proof.
  revert c. induction ns as [|n ns IH]; intros c; simpl; [lia|].
  rewrite IH. unfold countNode. destruct (node_type n); simpl; lia.
Qed.

Lemma countEdge_sum es c :
  let c' := fold_left countEdge es c in
  count_contains c' + count_imports c' + count_calls c'
  = count_contains c + count_imports c + count_calls c + length es.
Proof.
  revert c. induction es as [|e es IH]; intros c; simpl; [lia|].
  rewrite IH. unfold countEdge. destruct (edge_type e); simpl; lia.
Qed.

Lemma getGraphData_statsMatch this g this' :
  getGraphData this = Normal g this' -> statsMatch g.
Proof.
  unfold getGraphData. intros [= <- <-]. unfold statsMatch; simpl.
  repeat split; [eexists; split; [done|] ..].
  - apply (countNode_sum (nodes this)).
  - apply (countEdge_sum (edges this)).
Qed.

Lemma buildGraph_statsMatch env files this g this' :
  buildGraph env files this = Normal g this' -> statsMatch g.
Proof.
  unfold buildGraph, bind, reset. intros H.
  destruct files as [|f0 files]; [by eapply getGraphData_statsMatch|].
  destruct (buildFolderNodes _ _ _) as [[] s1|]; [|done].
  destruct (buildFileNodes _ _ s1) as [[] s2|]; [|done].
  destruct (buildEdges _ s2) as [[] s3|]; [|done].
  by eapply getGraphData_statsMatch.
Qed.

(** Decidable facts about concrete data, settled by evaluation. *)
Ltac by_evaluation :=
  lazymatch goal with
  | |- ~ _ => apply (bool_decide_eq_false_1 _); vm_compute; reflexivity
  | |- _ => apply (bool_decide_eq_true_1 _); vm_compute; reflexivity
  end.

(** ** Claim C2 *)

(** [C2], the claim as stated fails: with one record that lacks its
    [functions] array next to a complete one, [buildGraph] throws and no
    graph comes back. *)
Lemma C2_missing_array_throws :
  ~ exists g this',
      buildGraph sampleEnv
        [mkFile "/w/src/a.js" [mkFunc "foo" 0 2] [] [];
         recordWithoutFunctions]
        emptyBuilder
      = Normal g this'.
Proof. intros (g & this' & H). vm_compute in H. discriminate H. Qed.

(** [C2], as amended: [buildGraph] returns a graph, with a [stats]
    object that agrees with its node and edge arrays, exactly when every
    record has its [functions], [imports] and [exports] arrays and, if it
    has a function, its [calls] array; on any other input it throws a
    [TypeError] and nothing of the build is returned. *)
Theorem C2_buildGraph_returns_iff env files this :
  (exists g this',
      buildGraph env files this = Normal g this' /\ statsMatch g)
  <-> Forall hasArrays files.
Proof.
  split.
  - intros (g & this' & H & _). by eapply buildGraph_Normal.
  - intros Hall. destruct (returns_buildGraph env files Hall this)
      as (g & this' & H).
    exists g, this'. split; [done|]. by eapply buildGraph_statsMatch.
Qed.

(** ** Claim C7 *)

(** [buildGraph] starts with [reset()]: what it does is the same on every
    builder. *)
Lemma buildGraph_reset env files this this' :
  buildGraph env files this = buildGraph env files this'.
Proof. reflexivity. Qed.

(** [C7]: a second [buildGraph] on the same input, run on the builder the
    first one left behind, has the outcome of the first: the same payload
    with the same node and edge ids (or the same exception), and the same
    builder state. *)
Theorem C7_buildGraph_twice env files this :
  buildGraph env files (after (buildGraph env files this))
  = buildGraph env files this.
Proof. apply buildGraph_reset. Qed.

(** ** Claims C8 and C10 *)

(** The [stats] object of the payload of [getGraphData], computed from
    given node and edge arrays. *)
Definition payloadStats (ns : list NodeData) (es : list EdgeData) : Stats :=
  {| totalNodes := length ns; totalEdges := length es;
     nodesByType := Some (getNodeCountsByType ns);
     edgesByType := Some (getEdgeCountsByType es) |}.

(** [C8], the claim as stated fails: the [stats] of a filtered graph are
    not the [stats] of the payload shape computed from the filtered
    arrays; they have no [nodesByType] and no [edgesByType]. *)
Lemma C8_filter_stats_shape :
  ~ (forall g this',
       filterByNodeType ["file"] sampleBuilder = Normal g this' ->
       graph_stats g = payloadStats (graph_nodes g) (graph_edges g)).
Proof.
  intros H.
  specialize (H _ _ eq_refl). vm_compute in H. discriminate H.
Qed.

(** [C8], as amended: for every list of allowed types the filter returns
    the stored nodes whose type is in the list and the stored edges whose
    source and target are both ids of returned nodes, each in stored
    order, with a [stats] object that holds the two totals of the
    filtered arrays and nothing else. *)
Theorem C8_filter_induced_subgraph types this :
  exists g,
    filterByNodeType types this = Normal g this /\
    (forall n, n ∈ graph_nodes g <->
       n ∈ nodes this /\ nodeTypeName (node_type n) ∈ types) /\
    (forall e, e ∈ graph_edges g <->
       e ∈ edges this /\
       (exists n, n ∈ graph_nodes g /\ node_id n = edge_source e) /\
       (exists n, n ∈ graph_nodes g /\ node_id n = edge_target e)) /\
    sublist (graph_nodes g) (nodes this) /\
    sublist (graph_edges g) (edges this) /\
    graph_stats g =
      {| totalNodes := length (graph_nodes g);
         totalEdges := length (graph_edges g);
         nodesByType := None; edgesByType := None |}.
Proof.
  eexists. split; [reflexivity|]. simpl.
  split; [|split; [|split; [|split]]].
  - intros n. rewrite list_elem_of_filter. tauto.
  - intros e. rewrite list_elem_of_filter.
    rewrite !list_elem_of_fmap.
    split.
    + intros (((n1 & H1 & Hn1) & (n2 & H2 & Hn2)) & He). eauto 10.
    + intros (He & (n1 & H1 & Hn1) & (n2 & H2 & Hn2)). eauto 10.
  - apply sublist_filter.
  - apply sublist_filter.
  - reflexivity.
Qed.

(** [C10]: [filterByNodeType] returns and leaves every field of the
    builder as it was, so [getGraphData] gives the same payload after the
    call as before it. *)
Theorem C10_filter_keeps_builder types this :
  (exists g, filterByNodeType types this = Normal g this) /\
  after (filterByNodeType types this) = this /\
  getGraphData (after (filterByNodeType types this)) = getGraphData this.
Proof. unfold filterByNodeType. simpl. eauto. Qed.

(** ** Import resolution (claim C4) *)

(** The paths [resolveImportTarget] looks up, in the order it tries them:
    the source itself, then for each extension in turn the source with
    the extension appended and the index file of the source taken as a
    directory. *)
Definition candidates (importSource : string) : list string :=
  importSource ::
  flat_map
    (fun ext =>
       [importSource +:+ ext; Path.join importSource ("index" +:+ ext)])
    extensions.

(** The last resort: a known path that ends with or contains the
    source. *)
Definition fuzzyMatch (importSource filePath : string) : bool :=
  JS.endsWith filePath importSource || JS.includes filePath importSource.

(** The known path an import source resolves to: the first candidate
    that is known, else the first known path that matches fuzzily. *)
Definition resolvedPath (importSource : string) (known : list string)
  : option string :=
  match find (fun c => bool_decide (c ∈ known)) (candidates importSource) with
  | Some p => Some p
  | None => find (fuzzyMatch importSource) known
  end.

Lemma tryExtensions_find src known exts :
  tryExtensions src known exts
  = find (fun c => bool_decide (c ∈ known))
      (flat_map
         (fun ext => [src +:+ ext; Path.join src ("index" +:+ ext)]) exts).
Proof.
  induction exts as [|ext exts IH]; simpl; [done|].
  repeat case_bool_decide; auto.
Qed.

Lemma resolveImportTarget_resolvedPath src known :
  resolveImportTarget src known
  = match resolvedPath src known with
    | Some p => id <- getNodeId file p ;; ret (Some id)
    | None => ret None
    end.
Proof.
  unfold resolveImportTarget, resolvedPath, candidates. cbn [find].
  rewrite tryExtensions_find.
  case_bool_decide; [done|].
  destruct (find _ (flat_map _ _)); [done|].
  unfold fuzzyMatch. by destruct (find _ known).
Qed.

(** The claim's reading of the order: whenever some path [source + ext]
    is known (and the source itself is not), the import resolves to the
    node of such a path. *)
Definition extensionAppendWins (importSource : string)
    (known : list string) (this : GraphBuilder) : Prop :=
  importSource ∉ known ->
  forall ext, ext ∈ extensions -> importSource +:+ ext ∈ known ->
  exists ext',
    ext' ∈ extensions /\ importSource +:+ ext' ∈ known /\
    resolveImportTarget importSource known this
    = (id <- getNodeId file (importSource +:+ ext') ;; ret (Some id)) this.

(** [C4], the claim as stated fails: with [/w/b/index.js] and [/w/b.py]
    both known, the source [/w/b] resolves to the node of the index file,
    which the [.js] round finds before the [.py] round is reached. *)
Lemma C4_index_before_later_extension :
  ~ extensionAppendWins "/w/b" (JS.mapKeys (file_path <$> indexFiles))
      (after (buildFileNodes sampleEnv indexFiles emptyBuilder)).
Proof.
  intros H.
  destruct (H ltac:(by_evaluation) ".py")
    as (ext' & Hext & Hknown & Heq); [by_evaluation..|].
  unfold extensions in Hext.
  repeat (apply elem_of_cons in Hext as [->|Hext]);
    [..|by apply elem_of_nil in Hext];
    vm_compute in Heq; discriminate Heq.
Qed.

(** [C4], as amended: an import resolves to the node of the first known
    path among the source itself, then, extension by extension in the
    order [.js], [.jsx], [.ts], [.tsx], [.py], the source with the
    extension appended followed by the index file [join(source,
    "index" + ext)] of that same extension; when none of these is known,
    to the first known path that ends with or contains the source; an
    import that resolves to nothing adds no edge and changes nothing. *)
Theorem C4_resolution_order known fileNodeId imp this :
  resolveImportTarget (imp_source imp) known this
  = match resolvedPath (imp_source imp) known with
    | Some p => (id <- getNodeId file p ;; ret (Some id)) this
    | None => Normal None this
    end
  /\ (resolvedPath (imp_source imp) known = None ->
      buildImportEdge known fileNodeId imp this = Normal tt this).
Proof.
  rewrite resolveImportTarget_resolvedPath. split.
  - by destruct (resolvedPath _ _).
  - intros Hnone. unfold buildImportEdge.
    rewrite resolveImportTarget_resolvedPath, Hnone. reflexivity.
Qed.

(** An import of [lodash] in a workspace that has no such file resolves
    to nothing and adds no edge. *)
Lemma C4_witness :
  buildImportEdge (JS.mapKeys (file_path <$> sampleFiles)) "file-0"
    {| imp_source := "lodash"; imp_imported := "map"; imp_line := 0 |}
    sampleBuilder
  = Normal tt sampleBuilder.
Proof.
  apply (proj2 (C4_resolution_order _ "file-0"
                  {| imp_source := "lodash"; imp_imported := "map";
                     imp_line := 0 |} sampleBuilder)).
  vm_compute. reflexivity.
Defined.

(** ** What a method may touch *)

(** One elementary change of the builder: the id counter moves, a node
    whose type is among [T] is handed to [addNode], or an edge whose type
    is among [U] is handed to [addEdge]. *)
Inductive step (T : NodeType -> Prop) (U : EdgeType -> Prop)
  : GraphBuilder -> GraphBuilder -> Prop :=
| step_counter this k :
    step T U this
      {| nodes := nodes this; edges := edges this; nodeIdCounter := k;
         nodeMap := nodeMap this |}
| step_node this nd :
    T (node_type nd) -> step T U this (after (addNode nd this))
| step_edge this spec :
    U (spec_type spec) -> step T U this (after (addEdge spec this)).

(** [footprint T U m]: whatever [m] does to the builder, returning or
    throwing, is a sequence of such changes. *)
Definition footprint (T : NodeType -> Prop) (U : EdgeType -> Prop) {A}
    (m : M A) : Prop :=
  forall this, rtc (step T U) this (after (m this)).

(** Any type. *)
Definition any {A} (x : A) : Prop := True.

Section Footprint.

Variable T : NodeType -> Prop.
Variable U : EdgeType -> Prop.

Lemma footprint_ret {A} (a : A) : footprint T U (ret a).
Proof. intros this. simpl. reflexivity. Qed.

Lemma footprint_bind {A B} (m : M A) (k : A -> M B) :
  footprint T U m -> (forall a, footprint T U (k a)) -> footprint T U (bind m k).
Proof.
  intros Hm Hk this. unfold bind. specialize (Hm this).
  destruct (m this) as [a s|s]; simpl in *; [|done].
  etrans; [exact Hm|apply Hk].
Qed.

Lemma footprint_forEach {A} (f : A -> M unit) (l : list A) :
  (forall x, footprint T U (f x)) -> footprint T U (forEach f l).
Proof.
  intros Hf. induction l as [|x l IH]; simpl.
  - apply footprint_ret.
  - apply footprint_bind; auto.
Qed.

Lemma footprint_field {A} (o : option (list A)) : footprint T U (field o).
Proof. intros this. unfold field. destruct o; simpl; reflexivity. Qed.

Lemma footprint_getNodeId t p : footprint T U (getNodeId t p).
Proof.
  intros this. unfold getNodeId.
  destruct (nodeMap this !! _); simpl; [reflexivity|].
  apply rtc_once, step_counter.
Qed.

Lemma footprint_addNode nd : T (node_type nd) -> footprint T U (addNode nd).
Proof. intros HT this. by apply rtc_once, step_node. Qed.

Lemma footprint_addEdge spec :
  U (spec_type spec) -> footprint T U (addEdge spec).
Proof. intros HU this. by apply rtc_once, step_edge. Qed.

Lemma footprint_nodeMapHas k : footprint T U (nodeMapHas k).
Proof. intros this. simpl. reflexivity. Qed.

Lemma footprint_getGraphData : footprint T U getGraphData.
Proof. intros this. simpl. reflexivity. Qed.

End Footprint.

Ltac footprint_step :=
  lazymatch goal with
  | |- footprint _ _ (bind _ _) => apply footprint_bind; [|intros ?]
  | |- footprint _ _ (forEach _ _) => apply footprint_forEach; intros ?
  | |- footprint _ _ (if ?b then _ else _) => destruct b
  | |- footprint _ _ (match ?o with Some _ => _ | None => _ end) =>
      destruct o
  | |- footprint _ _ (ret _) => apply footprint_ret
  | |- footprint _ _ (field _) => apply footprint_field
  | |- footprint _ _ (getNodeId _ _) => apply footprint_getNodeId
  | |- footprint _ _ (addNode _) => apply footprint_addNode; simpl; try done
  | |- footprint _ _ (addEdge _) => apply footprint_addEdge; simpl; try done
  | |- footprint _ _ (nodeMapHas _) => apply footprint_nodeMapHas
  | |- footprint _ _ getGraphData => apply footprint_getGraphData
  end.

Lemma footprint_buildFolderNodes T U env files :
  T folder -> footprint T U (buildFolderNodes env files).
Proof.
  intros HT. unfold buildFolderNodes. repeat footprint_step.
Qed.

Lemma footprint_buildFileNodes T U env files :
  T file -> T function -> U contains ->
  footprint T U (buildFileNodes env files).
Proof.
  intros Hfile Hfunction Hcontains.
  unfold buildFileNodes, buildFileNode, buildFunctionNode.
  repeat footprint_step.
Qed.

Lemma footprint_buildEdges T U files :
  U imports -> U calls -> footprint T U (buildEdges files).
Proof.
  intros Himports Hcalls.
  unfold buildEdges, buildFileEdges, buildImportEdge, buildCallEdge,
    resolveImportTarget.
  repeat footprint_step.
Qed.

(** A build that returns: the payload is read off the final builder,
    which the three passes reach from the empty one. *)
Lemma buildGraph_passes env files this g this' :
  buildGraph env files this = Normal g this' ->
  getGraphData this' = Normal g this' /\
  (files = [] /\ this' = emptyBuilder \/
   exists s1 s2,
     buildFolderNodes env files emptyBuilder = Normal tt s1 /\
     buildFileNodes env files s1 = Normal tt s2 /\
     buildEdges files s2 = Normal tt this').
Proof.
  unfold buildGraph, bind, reset. fold emptyBuilder. intros H.
  destruct files as [|f0 files].
  { injection H as <- <-. split; [done|]. by left. }
  set (fs := f0 :: files) in *. clearbody fs.
  destruct (buildFolderNodes env fs _) as [[] s1|]; [|done].
  destruct (buildFileNodes env fs s1) as [[] s2|] eqn:Hn; [|done].
  destruct (buildEdges fs s2) as [[] s3|] eqn:He; [|done].
  unfold getGraphData in *. injection H as <- <-. split; [done|].
  right. eauto.
Qed.

Lemma buildGraph_footprint env files this g this' :
  buildGraph env files this = Normal g this' ->
  graph_nodes g = nodes this' /\ graph_edges g = edges this' /\
  rtc (step any any) emptyBuilder this'.
Proof.
  intros (Hg & Hpasses)%buildGraph_passes.
  unfold getGraphData in Hg. injection Hg as <-. simpl.
  split; [done|]. split; [done|].
  destruct Hpasses as [[_ ->]|(s1 & s2 & H1 & H2 & H3)]; [reflexivity|].
  pose proof (footprint_buildFolderNodes any any env files I
                emptyBuilder) as F1.
  pose proof (footprint_buildFileNodes any any env files I I I s1)
    as F2.
  pose proof (footprint_buildEdges any any files I I s2) as F3.
  rewrite H1 in F1. rewrite H2 in F2. rewrite H3 in F3. simpl in *.
  etrans; [exact F1|]. etrans; [exact F2|exact F3].
Qed.

(** ** Identifiers and keys *)

(** The id [getNodeId] generates from a type and a counter value, and the
    key it looks an identifier up under. *)
Definition idOf (t : NodeType) (k : N) : string :=
  nodeTypeName t +:+ "-" +:+ JS.numToString k.

Definition keyOf (t : NodeType) (identifier : string) : string :=
  nodeTypeName t +:+ ":" +:+ identifier.

(** A generated id. *)
Definition wfId (s : string) : Prop := exists t k, s = idOf t k.

(** [s] does not contain the character [c]. *)
Fixpoint without (c : ascii) (s : string) : Prop :=
  match s with
  | EmptyString => True
  | String c' s' => c' <> c /\ without c s'
  end.

Lemma append_assoc (a b c : string) : (a +:+ b) +:+ c = a +:+ b +:+ c.
Proof.
  induction a as [|x a IH]; [done|].
  change (String x ((a +:+ b) +:+ c) = String x (a +:+ b +:+ c)).
  by rewrite IH.
Qed.

(** Two strings cut at their first [c] agree on both sides of it. *)
Lemma split_at_first c a a' r r' :
  without c a -> without c a' ->
  a +:+ String c r = a' +:+ String c r' -> a = a' /\ r = r'.
Proof.
  revert a'. induction a as [|x a IH]; intros [|x' a'] Ha Ha' H;
    cbv [String.append] in H; fold String.append in H; simpl in Ha, Ha'.
  - by injection H as ->.
  - injection H as -> _. by destruct Ha'.
  - injection H as -> _. by destruct Ha.
  - injection H as -> H. destruct Ha, Ha'.
    destruct (IH a') as [-> ->]; auto.
Qed.

Lemma string_of_uint_without_dash d :
  without "-" (NilEmpty.string_of_uint d).
Proof. induction d; simpl; auto. Qed.

Lemma numToString_without_dash k : without "-" (JS.numToString k).
Proof. apply string_of_uint_without_dash. Qed.

Lemma numToString_inj k k' : JS.numToString k = JS.numToString k' -> k = k'.
Proof.
  unfold JS.numToString. intros H.
  apply Unsigned.to_uint_inj.
  assert (Some (N.to_uint k) = Some (N.to_uint k')) as [= ->];
    [|done].
  by rewrite <- !NilEmpty.usu, H.
Qed.

Lemma nodeTypeName_without c t :
  c = "-"%char \/ c = ":"%char -> without c (nodeTypeName t).
Proof. intros [-> | ->]; destruct t; cbn; repeat split; discriminate. Qed.

Lemma nodeTypeName_inj t t' : nodeTypeName t = nodeTypeName t' -> t = t'.
Proof. destruct t, t'; simpl; intros H; done. Qed.

Lemma edgeTypeName_inj t t' : edgeTypeName t = edgeTypeName t' -> t = t'.
Proof. destruct t, t'; simpl; intros H; done. Qed.

Lemma idOf_inj t k t' k' : idOf t k = idOf t' k' -> t = t' /\ k = k'.
Proof.
  unfold idOf. intros H.
  apply (split_at_first "-") in H as [Ht Hk];
    [|apply nodeTypeName_without; auto..].
  split; [by apply nodeTypeName_inj|by apply numToString_inj].
Qed.

Lemma keyOf_inj t p t' p' : keyOf t p = keyOf t' p' -> t = t' /\ p = p'.
Proof.
  unfold keyOf. intros H.
  apply (split_at_first ":") in H as [Ht Hk];
    [|apply nodeTypeName_without; auto..].
  split; [by apply nodeTypeName_inj|done].
Qed.

Lemma idOf_truthy t k : JS.truthy (idOf t k) = true.
Proof. by destruct t. Qed.

Lemma wfId_truthy s : wfId s -> JS.truthy s = true.
Proof. intros (t & k & ->). apply idOf_truthy. Qed.

Lemma orElse_truthy s d : JS.truthy s = true -> JS.orElse s d = s.
Proof. unfold JS.orElse. by intros ->. Qed.

Lemma truthy_nonempty s : s <> "" -> JS.truthy s = true.
Proof. unfold JS.truthy. by intros ?%String.eqb_neq; destruct (_ =? _)%string. Qed.

Lemma orElse_empty s : JS.orElse s "" = s.
Proof.
  unfold JS.orElse, JS.truthy.
  destruct (String.eqb_spec s "") as [->|]; done.
Qed.

(** On generated ids the key [addEdge] compares determines the source,
    the target and the type. *)
Lemma edgeKey_inj s t ty s' t' ty' :
  wfId s -> wfId t -> wfId s' -> wfId t' ->
  edgeKey s t ty = edgeKey s' t' ty' -> s = s' /\ t = t' /\ ty = ty'.
Proof.
  intros (a & k & ->) (b & j & ->) (a' & k' & ->) (b' & j' & ->).
  unfold edgeKey, idOf. rewrite !append_assoc. intros H.
  apply (split_at_first "-") in H as [->%nodeTypeName_inj H];
    [|apply nodeTypeName_without; auto..].
  apply (split_at_first "-") in H as [->%numToString_inj H];
    [|apply numToString_without_dash..].
  apply (split_at_first "-") in H as [->%nodeTypeName_inj H];
    [|apply nodeTypeName_without; auto..].
  apply (split_at_first "-") in H as [->%numToString_inj H];
    [|apply numToString_without_dash..].
  by apply edgeTypeName_inj in H as ->.
Qed.

(** ** Assertions on method calls *)

(** [hoare P m Q]: started on a builder that satisfies [P], a call [m]
    that returns does so with a value and a builder that satisfy [Q]. *)
Definition hoare {A} (P : GraphBuilder -> Prop) (m : M A)
    (Q : A -> GraphBuilder -> Prop) : Prop :=
  forall this, P this ->
    match m this with
    | Normal a this' => Q a this'
    | TypeError _ => True
    end.

Lemma hoare_ret {A} (P : GraphBuilder -> Prop) (a : A) :
  hoare P (ret a) (fun _ => P).
Proof. by intros this H. Qed.

Lemma hoare_bind {A B} P (m : M A) (k : A -> M B) R Q :
  hoare P m R -> (forall a, hoare (R a) (k a) Q) -> hoare P (bind m k) Q.
Proof.
  intros Hm Hk this HP. unfold bind. specialize (Hm this HP).
  destruct (m this) as [a s|s]; [|done]. by apply Hk.
Qed.

Lemma hoare_conseq {A} (P P' : GraphBuilder -> Prop) (m : M A)
    (Q Q' : A -> GraphBuilder -> Prop) :
  hoare P' m Q' -> (forall this, P this -> P' this) ->
  (forall a this, Q' a this -> Q a this) -> hoare P m Q.
Proof.
  intros H HP HQ this Hthis. specialize (H this (HP _ Hthis)).
  destruct (m this); auto.
Qed.

Lemma hoare_pure {A} (phi : Prop) P (m : M A) Q :
  (phi -> hoare P m Q) -> hoare (fun this => phi /\ P this) m Q.
Proof. intros H this [Hphi HP]. by apply H. Qed.

Lemma hoare_forEach {A} (I : GraphBuilder -> Prop) (f : A -> M unit) l :
  (forall x, x ∈ l -> hoare I (f x) (fun _ => I)) ->
  hoare I (forEach f l) (fun _ => I).
Proof.
  induction l as [|x l IH]; intros Hf; simpl.
  - apply hoare_ret.
  - eapply hoare_bind; [apply Hf; left|].
    intros ?. apply IH. intros y Hy. apply Hf. by right.
Qed.

Lemma hoare_field {A} P (o : option (list A)) :
  hoare P (field o) (fun l this => o = Some l /\ P this).
Proof. intros this HP. unfold field. by destruct o. Qed.

Lemma hoare_nodeMapHas_frame P k : hoare P (nodeMapHas k) (fun _ => P).
Proof. by intros this HP. Qed.

(** What [getNodeId] returns: the id on file under the key, or a fresh
    one made from the counter, which then moves on. *)
Definition withCounter (k : N) (this : GraphBuilder) : GraphBuilder :=
  {| nodes := nodes this; edges := edges this; nodeIdCounter := k;
     nodeMap := nodeMap this |}.

Lemma getNodeId_cases t p this :
  (exists id, nodeMap this !! keyOf t p = Some id /\
     getNodeId t p this = Normal id this) \/
  (nodeMap this !! keyOf t p = None /\
     getNodeId t p this
     = Normal (idOf t (nodeIdCounter this))
         (withCounter (nodeIdCounter this + 1) this)).
Proof.
  unfold getNodeId. fold (keyOf t p).
  destruct (nodeMap this !! keyOf t p) as [id|]; [left; eauto|by right].
Qed.

(** What [addNode] does: nothing when a truthy id is on file under the
    key of the node, else the node is appended and filed. *)
Definition withNode (nd : NodeData) (this : GraphBuilder) : GraphBuilder :=
  {| nodes := nodes this ++ [nd]; edges := edges this;
     nodeIdCounter := nodeIdCounter this;
     nodeMap := <[nodeKey nd := node_id nd]> (nodeMap this) |}.

Lemma addNode_cases nd this :
  (exists id, nodeMap this !! nodeKey nd = Some id /\ JS.truthy id = true /\
     addNode nd this = Normal id this) \/
  ((forall id, nodeMap this !! nodeKey nd = Some id -> JS.truthy id = false) /\
     addNode nd this = Normal (node_id nd) (withNode nd this)).
Proof.
  unfold addNode.
  destruct (nodeMap this !! nodeKey nd) as [id|]; [|by right].
  destruct (JS.truthy id) eqn:Ht; [left; eauto|right].
  split; [|done]. by intros ? [= <-].
Qed.

(** What [addEdge] does: nothing when an edge with the same key is
    stored, else the edge is appended under the next edge id. *)
Definition keyOfEdge (e : EdgeData) : string :=
  edgeKey (edge_source e) (edge_target e) (edge_type e).

Definition keyOfSpec (spec : EdgeSpec) : string :=
  edgeKey (spec_source spec) (spec_target spec) (spec_type spec).

Definition newEdge (n : nat) (spec : EdgeSpec) : EdgeData :=
  {| edge_id := "edge-" +:+ JS.numToString (N.of_nat n);
     edge_source := spec_source spec; edge_target := spec_target spec;
     edge_type := spec_type spec;
     edge_label := JS.orElse (spec_label spec) "" |}.

Definition withEdge (spec : EdgeSpec) (this : GraphBuilder) : GraphBuilder :=
  {| nodes := nodes this;
     edges := edges this ++ [newEdge (length (edges this)) spec];
     nodeIdCounter := nodeIdCounter this; nodeMap := nodeMap this |}.

Lemma addEdge_cases spec this :
  (exists e, e ∈ edges this /\ keyOfEdge e = keyOfSpec spec /\
     addEdge spec this = Normal tt this) \/
  ((forall e, e ∈ edges this -> keyOfEdge e <> keyOfSpec spec) /\
     addEdge spec this = Normal tt (withEdge spec this)).
Proof.
  unfold addEdge. fold (keyOfSpec spec).
  destruct (existsb _ (edges this)) eqn:Hex.
  - apply existsb_exists in Hex as (e & Hin & Heq%String.eqb_eq).
    left. exists e. by rewrite list_elem_of_In.
  - right. split; [|done]. intros e Hin Heq.
    apply not_true_iff_false in Hex. apply Hex, existsb_exists.
    exists e. split; [by apply list_elem_of_In|by apply String.eqb_eq].
Qed.

(** ** Edges are stored once (claim C5) *)

Definition tripleOf (e : EdgeData) : string * string * EdgeType :=
  (edge_source e, edge_target e, edge_type e).

Definition tripleOfSpec (spec : EdgeSpec) : string * string * EdgeType :=
  (spec_source spec, spec_target spec, spec_type spec).

Lemma keyOfEdge_triple e e' : tripleOf e = tripleOf e' -> keyOfEdge e = keyOfEdge e'.
Proof. unfold tripleOf, keyOfEdge. by intros [= -> -> ->]. Qed.

Lemma keyOfSpec_triple e spec :
  tripleOf e = tripleOfSpec spec -> keyOfEdge e = keyOfSpec spec.
Proof. unfold tripleOf, tripleOfSpec, keyOfEdge, keyOfSpec. by intros [= -> -> ->]. Qed.

Lemma NoDup_keys_triples es :
  NoDup (keyOfEdge <$> es) -> NoDup (tripleOf <$> es).
Proof.
  intros H.
  apply (NoDup_fmap_1 (fun '(s, t, ty) => edgeKey s t ty)).
  rewrite <- list_fmap_compose. exact H.
Qed.

Lemma addNode_edges nd this : edges (after (addNode nd this)) = edges this.
Proof.
  destruct (addNode_cases nd this) as [(id & _ & _ & ->)|[_ ->]]; done.
Qed.

Lemma addEdge_nodes spec this : nodes (after (addEdge spec this)) = nodes this.
Proof.
  destruct (addEdge_cases spec this) as [(e & _ & _ & ->)|[_ ->]]; done.
Qed.

Lemma addEdge_keeps_keys spec this :
  NoDup (keyOfEdge <$> edges this) ->
  NoDup (keyOfEdge <$> edges (after (addEdge spec this))).
Proof.
  intros H.
  destruct (addEdge_cases spec this) as [(e & _ & _ & ->)|[Hnew ->]];
    [done|]. simpl.
  rewrite fmap_app. apply NoDup_app. split; [done|]. split.
  - intros k (e & -> & Hin)%list_elem_of_fmap Hk. simpl in Hk.
    apply list_elem_of_singleton in Hk. by apply (Hnew e).
  - apply NoDup_singleton.
Qed.

Lemma step_keeps_keys T U this this' :
  step T U this this' ->
  NoDup (keyOfEdge <$> edges this) -> NoDup (keyOfEdge <$> edges this').
Proof.
  intros [s k|s nd _|s spec _]; simpl.
  - done.
  - by rewrite addNode_edges.
  - apply addEdge_keeps_keys.
Qed.

Lemma steps_keep_keys T U this this' :
  rtc (step T U) this this' ->
  NoDup (keyOfEdge <$> edges this) -> NoDup (keyOfEdge <$> edges this').
Proof. induction 1; eauto using step_keeps_keys. Qed.

Lemma step_edges_prefix T U this this' :
  step T U this this' -> edges this `prefix_of` edges this'.
Proof.
  intros [s k|s nd _|s spec _]; simpl.
  - done.
  - by rewrite addNode_edges.
  - destruct (addEdge_cases spec s) as [(e & _ & _ & ->)|[_ ->]];
      [done|]. simpl. by eexists.
Qed.

Lemma steps_edges_prefix T U this this' :
  rtc (step T U) this this' -> edges this `prefix_of` edges this'.
Proof.
  induction 1 as [|x y z Hxy _ IH]; [done|].
  etrans; [by eapply step_edges_prefix|done].
Qed.

(** The ids on file and the ends of the stored edges are generated
    ids. *)
Record WF (this : GraphBuilder) : Prop := {
  wf_map : forall k id, nodeMap this !! k = Some id -> wfId id;
  wf_edges : forall e, e ∈ edges this ->
    wfId (edge_source e) /\ wfId (edge_target e)
}.

Lemma WF_empty : WF emptyBuilder.
Proof.
  split; simpl.
  - intros k id H. by rewrite lookup_empty in H.
  - intros e H. by apply elem_of_nil in H.
Qed.

Lemma hoare_getNodeId_WF t p :
  hoare WF (getNodeId t p) (fun id this => wfId id /\ WF this).
Proof.
  intros this [Hmap Hedges].
  destruct (getNodeId_cases t p this) as [(id & Hk & ->)|[Hk ->]].
  - split; [by eapply Hmap|done].
  - split; [by eexists _, _|done].
Qed.

Lemma hoare_addNode_WF nd :
  wfId (node_id nd) ->
  hoare WF (addNode nd) (fun id this => wfId id /\ WF this).
Proof.
  intros Hid this [Hmap Hedges].
  destruct (addNode_cases nd this) as [(id & Hk & _ & ->)|[_ ->]].
  - split; [by eapply Hmap|done].
  - split; [done|]. split; simpl; [|done].
    intros k id. rewrite lookup_insert. case_decide; [|apply Hmap].
    by intros [= <-].
Qed.

Lemma hoare_addEdge_WF spec :
  wfId (spec_source spec) -> wfId (spec_target spec) ->
  hoare WF (addEdge spec) (fun _ => WF).
Proof.
  intros Hs Ht this [Hmap Hedges].
  destruct (addEdge_cases spec this) as [(e & _ & _ & ->)|[_ ->]]; [done|].
  split; simpl; [done|].
  intros e [He | ->%list_elem_of_singleton]%elem_of_app; auto.
Qed.

Ltac wf_step :=
  lazymatch goal with
  | |- hoare _ (bind (getNodeId _ _) _) _ =>
      eapply hoare_bind;
      [apply hoare_getNodeId_WF|intros ?; apply hoare_pure; intros ?]
  | |- hoare _ (bind (addNode _) _) _ =>
      eapply hoare_bind;
      [apply hoare_addNode_WF; simpl; assumption
      |intros ?; apply hoare_pure; intros ?]
  | |- hoare _ (bind (field _) _) _ =>
      eapply hoare_bind;
      [apply hoare_field|intros ?; apply hoare_pure; intros ?]
  | |- hoare _ (bind (nodeMapHas _) _) _ =>
      eapply hoare_bind; [apply hoare_nodeMapHas_frame|intros ?]
  | |- hoare _ (bind (if ?b then _ else _) _) _ =>
      apply (hoare_bind _ _ _ (fun _ => WF)); [destruct b|intros ?]
  | |- hoare _ (bind (forEach _ _) _) _ =>
      apply (hoare_bind _ _ _ (fun _ => WF)); [|intros ?]
  | |- hoare _ (forEach _ _) _ => apply hoare_forEach; intros ? _
  | |- hoare _ (if ?b then _ else _) _ => destruct b
  | |- hoare _ (match ?o with Some _ => _ | None => _ end) _ => destruct o
  | |- hoare _ (ret _) _ => apply hoare_ret
  | |- hoare _ (addEdge _) _ => apply hoare_addEdge_WF; simpl; assumption
  end.

Lemma WF_buildFolderNodes env files :
  hoare WF (buildFolderNodes env files) (fun _ => WF).
Proof. unfold buildFolderNodes. repeat wf_step. Qed.

Lemma WF_buildFileNodes env files :
  hoare WF (buildFileNodes env files) (fun _ => WF).
Proof.
  unfold buildFileNodes, buildFileNode, buildFunctionNode.
  repeat wf_step.
Qed.

Lemma WF_resolveImportTarget src known :
  hoare WF (resolveImportTarget src known)
    (fun o this => (forall id, o = Some id -> wfId id) /\ WF this).
Proof.
  rewrite resolveImportTarget_resolvedPath.
  destruct (resolvedPath src known) as [p|].
  - eapply hoare_bind; [apply hoare_getNodeId_WF|].
    intros id this [Hid H]. simpl. split; [|done]. by intros ? [= <-].
  - intros this H. simpl. done.
Qed.

Lemma WF_buildEdges files : hoare WF (buildEdges files) (fun _ => WF).
Proof.
  unfold buildEdges, buildFileEdges, buildImportEdge, buildCallEdge.
  repeat wf_step.
  eapply hoare_bind; [apply WF_resolveImportTarget|].
  intros [target|]; apply hoare_pure; intros Ht; repeat wf_step.
  apply hoare_addEdge_WF; simpl; auto.
Qed.

Lemma buildGraph_WF env files this g this' :
  buildGraph env files this = Normal g this' -> WF this'.
Proof.
  intros (_ & [[_ ->]|(s1 & s2 & H1 & H2 & H3)])%buildGraph_passes;
    [apply WF_empty|].
  pose proof (WF_buildFolderNodes env files _ WF_empty) as W1.
  rewrite H1 in W1.
  pose proof (WF_buildFileNodes env files _ W1) as W2. rewrite H2 in W2.
  pose proof (WF_buildEdges files _ W2) as W3. by rewrite H3 in W3.
Qed.

(** Edges handed to [addEdge] one after the other. *)
Definition wfSpec (spec : EdgeSpec) : Prop :=
  wfId (spec_source spec) /\ wfId (spec_target spec).

Definition wfEdges (this : GraphBuilder) : Prop :=
  forall e, e ∈ edges this -> wfId (edge_source e) /\ wfId (edge_target e).

Definition submitAll (specs : list EdgeSpec) (this : GraphBuilder)
  : GraphBuilder :=
  after (forEach addEdge specs this).

Lemma submitAll_cons spec specs this :
  submitAll (spec :: specs) this
  = submitAll specs (after (addEdge spec this)).
Proof.
  unfold submitAll. simpl. unfold bind.
  destruct (addEdge_cases spec this) as [(e & _ & _ & ->)|[_ ->]]; done.
Qed.

Lemma submitAll_steps specs this :
  rtc (step any any) this (submitAll specs this).
Proof.
  apply (footprint_forEach any any). intros spec.
  by apply footprint_addEdge.
Qed.

Lemma addEdge_wfEdges spec this :
  wfSpec spec -> wfEdges this -> wfEdges (after (addEdge spec this)).
Proof.
  intros [Hs Ht] H.
  destruct (addEdge_cases spec this) as [(e & _ & _ & ->)|[_ ->]]; [done|].
  intros e [He | ->%list_elem_of_singleton]%elem_of_app; auto.
Qed.

(** A stored edge with the triple of [spec]. *)
Definition stored (spec : EdgeSpec) (this : GraphBuilder) : Prop :=
  exists e, e ∈ edges this /\ tripleOf e = tripleOfSpec spec.

Lemma addEdge_stored_drops spec this :
  stored spec this -> addEdge spec this = Normal tt this.
Proof.
  intros (e & He & Htriple).
  destruct (addEdge_cases spec this) as [(e' & _ & _ & ->)|[Hnew _]];
    [done|].
  destruct (Hnew e He). by apply keyOfSpec_triple.
Qed.

Lemma addEdge_fresh_appends spec this :
  wfSpec spec -> wfEdges this -> ~ stored spec this ->
  addEdge spec this = Normal tt (withEdge spec this).
Proof.
  intros [Hs Ht] Hwf Hfresh.
  destruct (addEdge_cases spec this) as [(e & He & Hkey & _)|[_ ->]];
    [|done].
  destruct Hfresh. exists e. split; [done|].
  destruct (Hwf e He) as [Hes Het].
  apply edgeKey_inj in Hkey as (? & ? & ?); auto.
  unfold tripleOf, tripleOfSpec. congruence.
Qed.

Lemma submitAll_origin specs this e :
  e ∈ edges (submitAll specs this) ->
  e ∈ edges this \/
  exists spec, spec ∈ specs /\ tripleOf e = tripleOfSpec spec.
Proof.
  revert this. induction specs as [|spec specs IH]; intros this He.
  - by left.
  - rewrite submitAll_cons in He. apply IH in He as [He|(s & Hs & Ht)].
    + destruct (addEdge_cases spec this) as [(e' & _ & _ & Heq)|[_ Heq]];
        rewrite Heq in He; simpl in He; [by left|].
      apply elem_of_app in He as [He | ->%list_elem_of_singleton];
        [by left|right].
      exists spec. split; [left|done].
    + right. exists s. split; [by right|done].
Qed.

Lemma submitAll_first pre spec post this :
  Forall wfSpec (pre ++ spec :: post) -> wfEdges this ->
  ~ stored spec this ->
  (forall s, s ∈ pre -> tripleOfSpec s <> tripleOfSpec spec) ->
  exists e, e ∈ edges (submitAll (pre ++ spec :: post) this) /\
    tripleOf e = tripleOfSpec spec /\ edge_label e = spec_label spec.
Proof.
  revert this. induction pre as [|s pre IH]; intros this Hspecs Hwf Hfresh Hpre.
  - simpl in *. rewrite submitAll_cons.
    apply Forall_cons in Hspecs as [Hspec _].
    rewrite (addEdge_fresh_appends spec this); [|done..]. simpl.
    destruct (steps_edges_prefix _ _ _ _
                (submitAll_steps post (withEdge spec this))) as [k ->].
    exists (newEdge (length (edges this)) spec).
    split; [|split; [done|apply orElse_empty]].
    simpl. rewrite !elem_of_app, list_elem_of_singleton. auto.
  - simpl in *. rewrite submitAll_cons.
    apply Forall_cons in Hspecs as [Hs Hspecs].
    apply IH; [done|by apply addEdge_wfEdges| |].
    + intros (e & He & Htriple). apply Hfresh.
      destruct (addEdge_cases s this) as [(e' & _ & _ & Heq)|[_ Heq]];
        rewrite Heq in He; simpl in He; [by exists e|].
      apply elem_of_app in He as [He | ->%list_elem_of_singleton];
        [by exists e|].
      destruct (Hpre s); [left|done].
    + intros s' Hs'. apply Hpre. by right.
Qed.

(** [C5]: a graph [buildGraph] returns has no two edges with the same
    source, target and type, and the ends of its edges are generated ids;
    and when edges with generated ids are handed one after the other to a
    reset store, the stored edges have pairwise different triples, each
    comes from a submitted edge, and the first submission of a triple is
    stored with its own label (later ones find it stored and are
    dropped). *)
Theorem C5_one_edge_per_triple :
  (forall env files this g this',
     buildGraph env files this = Normal g this' ->
     NoDup (tripleOf <$> graph_edges g) /\
     forall e, e ∈ graph_edges g ->
       wfId (edge_source e) /\ wfId (edge_target e)) /\
  (forall specs, Forall wfSpec specs ->
     let es := edges (submitAll specs emptyBuilder) in
     NoDup (tripleOf <$> es) /\
     (forall e, e ∈ es ->
        exists spec, spec ∈ specs /\ tripleOf e = tripleOfSpec spec) /\
     (forall pre spec post, specs = pre ++ spec :: post ->
        (forall s, s ∈ pre -> tripleOfSpec s <> tripleOfSpec spec) ->
        exists e, e ∈ es /\ tripleOf e = tripleOfSpec spec /\
          edge_label e = spec_label spec) /\
     (forall spec, stored spec (submitAll specs emptyBuilder) ->
        addEdge spec (submitAll specs emptyBuilder)
        = Normal tt (submitAll specs emptyBuilder))).
Proof.
  split.
  - intros env files this g this' H. split.
    + destruct (buildGraph_footprint _ _ _ _ _ H) as (_ & -> & Hsteps).
      apply NoDup_keys_triples.
      eapply steps_keep_keys; [exact Hsteps|]. simpl. constructor.
    + destruct (buildGraph_footprint _ _ _ _ _ H) as (_ & -> & _).
      apply (wf_edges _ (buildGraph_WF _ _ _ _ _ H)).
  - intros specs Hspecs es. subst es. split; [|split; [|split]].
    + apply NoDup_keys_triples.
      eapply steps_keep_keys; [apply submitAll_steps|]. simpl. constructor.
    + intros e He. apply submitAll_origin in He as [He|He]; [|done].
      by apply elem_of_nil in He.
    + intros pre spec post -> Hpre.
      apply submitAll_first; [done| | |done].
      * intros e He. by apply elem_of_nil in He.
      * intros (e & He & _). by apply elem_of_nil in He.
    + intros spec. apply addEdge_stored_drops.
Qed.

Lemma wfId_generated t k : wfId (idOf t k).
Proof. by exists t, k. Qed.

Lemma C5_witness :
  NoDup (tripleOf <$> edges (after (buildGraph sampleEnv sampleFiles
                                      emptyBuilder))) /\
  exists e, e ∈ edges (submitAll twoImports emptyBuilder) /\
    edge_label e = "bar".
Proof.
  split.
  - destruct (buildGraph sampleEnv sampleFiles emptyBuilder)
      as [g this'|] eqn:H; [|by vm_compute in H].
    destruct (proj1 C5_one_edge_per_triple _ _ _ _ _ H) as [Hnodup _].
    simpl. destruct (buildGraph_footprint _ _ _ _ _ H) as (_ & <- & _).
    exact Hnodup.
  - assert (Forall wfSpec twoImports) as Hwf.
    { repeat constructor; simpl;
        first [apply (wfId_generated file 0)|apply (wfId_generated file 1)]. }
    destruct (proj2 C5_one_edge_per_triple twoImports Hwf)
      as (_ & _ & Hfirst & _).
    destruct (Hfirst [] _ _ eq_refl) as (e & He & _ & Hlabel).
    + intros s Hs. by apply elem_of_nil in Hs.
    + by exists e.
Defined.

(** ** The folder walk (claim C9) *)

(** Separators in a list of characters. *)
Definition seps (l : list ascii) : nat := length (List.filter Path.isSep l).

Lemma depth_of_list l : Path.depth (string_of_list_ascii l) = seps l.
Proof. unfold Path.depth. by rewrite list_ascii_of_string_of_list_ascii. Qed.

Lemma seps_rev l : seps (rev l) = seps l.
Proof. unfold seps. by rewrite filter_rev, length_rev. Qed.

Lemma seps_cons c l :
  seps (c :: l) = (if Path.isSep c then 1 else 0) + seps l.
Proof. unfold seps. simpl. by destruct (Path.isSep c). Qed.

(** The scan of [dirname] drops at least one separator. *)
Lemma dirnameScan_seps b l r :
  Path.dirnameScan b l = Some r -> seps r < seps l.
Proof.
  revert b. induction l as [|c l IH]; intros b H; simpl in H; [done|].
  rewrite seps_cons. destruct (Path.isSep c).
  - destruct b.
    + apply IH in H. lia.
    + injection H as ->. lia.
  - apply IH in H. lia.
Qed.

(** [dirname] returns a root ([/] or [.]), or [//] on a path with two
    separators at least, or a path with fewer separators than its
    argument. *)
Lemma dirname_cases p :
  Path.dirname p = "/" \/ Path.dirname p = "." \/
  (Path.dirname p = "//" /\ 2 <= Path.depth p) \/
  Path.depth (Path.dirname p) < Path.depth p.
Proof.
  unfold Path.dirname.
  assert (Path.depth p = seps (list_ascii_of_string p)) as -> by done.
  destruct (list_ascii_of_string p) as [|c0 t]; [auto|].
  destruct (Path.dirnameScan true (rev t)) as [r|] eqn:Hscan.
  - apply dirnameScan_seps in Hscan. rewrite seps_rev in Hscan.
    rewrite seps_cons.
    destruct (Path.isSep c0) eqn:Hc0; cbn [andb].
    + case_bool_decide.
      * right. right. left. split; [done|lia].
      * right. right. right.
        rewrite depth_of_list, seps_cons, seps_rev, Hc0. lia.
    + right. right. right.
      rewrite depth_of_list, seps_cons, seps_rev, Hc0. lia.
  - destruct (Path.isSep c0); auto.
Qed.

Lemma dirname_nonempty p : Path.dirname p <> "".
Proof.
  unfold Path.dirname.
  destruct (list_ascii_of_string p) as [|c0 t]; [done|].
  destruct (Path.dirnameScan true (rev t)) as [r|].
  - destruct (Path.isSep c0 && bool_decide (r = [])); done.
  - destruct (Path.isSep c0); done.
Qed.

(** How often the loop condition can still hold from a directory on. *)
Definition bound (currentPath : string) : nat :=
  if bool_decide (currentPath = "/" \/ currentPath = ".") then 0
  else if bool_decide (currentPath = "//") then 1
  else S (Path.depth currentPath).

Lemma bound_le p : bound p <= S (Path.depth p).
Proof. unfold bound. repeat case_bool_decide; lia. Qed.

Lemma bound_dirname p : bound (Path.dirname p) <= Path.depth p.
Proof.
  destruct (dirname_cases p) as [H|[H|[[H Hd]|H]]].
  - rewrite H. change (0 <= Path.depth p). lia.
  - rewrite H. change (0 <= Path.depth p). lia.
  - rewrite H. change (1 <= Path.depth p). lia.
  - pose proof (bound_le (Path.dirname p)). lia.
Qed.

Lemma bound_step p :
  p <> Path.dirname p -> bound (Path.dirname p) < bound p.
Proof.
  intros Hne. unfold bound at 2.
  case_bool_decide as Hroot.
  { destruct Hroot as [-> | ->]; by destruct Hne. }
  case_bool_decide as Hdouble.
  { subst p. change (0 < 1). lia. }
  pose proof (bound_dirname p). lia.
Qed.

(** With fuel beyond the bound the loop has come to its end. *)
Lemma ancestry_enough ws fuel currentPath folders :
  bound currentPath < fuel ->
  is_Some (ancestry fuel ws currentPath folders).
Proof.
  revert currentPath folders.
  induction fuel as [|fuel IH]; intros cur folders Hfuel; [lia|].
  simpl. destruct (bool_decide (cur <> ws)); simpl; [|done].
  case_bool_decide as Hne; simpl; [|done].
  apply IH. pose proof (bound_step cur Hne). lia.
Qed.

Lemma setAdd_length x s : length (JS.setAdd x s) <= S (length s).
Proof.
  unfold JS.setAdd. case_bool_decide; [lia|].
  rewrite length_app. simpl. lia.
Qed.

(** The loop adds at most one directory per round. *)
Lemma ancestry_length ws fuel currentPath folders r :
  ancestry (S fuel) ws currentPath folders = Some r ->
  length r <= length folders + fuel.
Proof.
  revert currentPath folders.
  induction fuel as [|fuel IH]; intros cur folders H.
  - simpl in H. destruct (_ && _); [done|]. injection H as <-. lia.
  - cbn [ancestry] in H. destruct (_ && _).
    + apply IH in H. pose proof (setAdd_length cur folders). lia.
    + injection H as <-. lia.
Qed.

Lemma ancestry_terminates ws p folders :
  exists r,
    ancestry (S (Path.depth p)) ws (Path.dirname p) folders = Some r /\
    length r <= length folders + Path.depth p.
Proof.
  destruct (ancestry_enough ws (S (Path.depth p)) (Path.dirname p) folders)
    as [r Hr].
  { pose proof (bound_dirname p). lia. }
  exists r. split; [done|]. by eapply ancestry_length.
Qed.

(** *** The set of folders *)

Lemma elem_of_setAdd d x s : d ∈ JS.setAdd x s <-> d = x \/ d ∈ s.
Proof.
  unfold JS.setAdd. case_bool_decide.
  - split; [auto|]. by intros [->|].
  - rewrite elem_of_app, list_elem_of_singleton. tauto.
Qed.

(** The directories the loop adds: each passed the loop condition. *)
Lemma ancestry_elements ws fuel currentPath folders r d :
  ancestry fuel ws currentPath folders = Some r -> d ∈ r ->
  d ∈ folders \/
  (d <> ws /\ d <> Path.dirname d /\
   (d = currentPath \/ exists q, d = Path.dirname q)).
Proof.
  revert currentPath folders.
  induction fuel as [|fuel IH]; intros cur folders H Hd; [done|].
  simpl in H. case_bool_decide as Hws; simpl in H.
  - case_bool_decide as Hroot; simpl in H.
    + destruct (IH _ _ H Hd) as [Hin|(? & ? & Hq)].
      * apply elem_of_setAdd in Hin as [->|Hin]; auto.
      * right. repeat split; auto. right.
        destruct Hq as [->|Hq]; eauto.
    + injection H as <-. auto.
  - injection H as <-. auto.
Qed.

Lemma ancestry_mono ws fuel currentPath folders r d :
  ancestry fuel ws currentPath folders = Some r -> d ∈ folders -> d ∈ r.
Proof.
  revert currentPath folders.
  induction fuel as [|fuel IH]; intros cur folders H Hd; [done|].
  simpl in H. destruct (_ && _).
  - eapply IH; [exact H|]. apply elem_of_setAdd. auto.
  - by injection H as <-.
Qed.

Lemma ancestry_first ws fuel currentPath folders r :
  ancestry fuel ws currentPath folders = Some r ->
  currentPath <> ws -> currentPath <> Path.dirname currentPath ->
  currentPath ∈ r.
Proof.
  intros H Hws Hroot. destruct fuel as [|fuel]; [done|]. simpl in H.
  rewrite !bool_decide_eq_true_2 in H by done. simpl in H.
  eapply ancestry_mono; [exact H|]. apply elem_of_setAdd. auto.
Qed.

(** What the loop visits does not depend on the set it adds to. *)
Lemma ancestry_visits ws fuel currentPath s1 s2 r1 r2 d :
  ancestry fuel ws currentPath s1 = Some r1 ->
  ancestry fuel ws currentPath s2 = Some r2 ->
  d ∈ r1 -> d ∈ s1 \/ d ∈ r2.
Proof.
  revert currentPath s1 s2.
  induction fuel as [|fuel IH]; intros cur s1 s2 H1 H2 Hd; [done|].
  simpl in H1, H2. destruct (_ && _).
  - destruct (IH _ _ _ H1 H2 Hd) as [Hin|Hin]; [|by right].
    apply elem_of_setAdd in Hin as [->|Hin]; [right|by left].
    eapply ancestry_mono; [exact H2|]. apply elem_of_setAdd. auto.
  - injection H1 as <-. auto.
Qed.

Lemma addAncestors_Some ws folders p :
  ancestry (S (Path.depth p)) ws (Path.dirname p) folders
  = Some (addAncestors ws folders p).
Proof.
  unfold addAncestors.
  by destruct (ancestry_terminates ws p folders) as (r & -> & _).
Qed.

(** The folders collected from the paths [ps], starting from [s]. *)
Lemma folders_mono ws ps s d :
  d ∈ s -> d ∈ fold_left (addAncestors ws) ps s.
Proof.
  revert s. induction ps as [|p ps IH]; intros s Hd; simpl; [done|].
  apply IH. eapply ancestry_mono; [apply addAncestors_Some|done].
Qed.

Lemma folders_elements ws ps s d :
  d ∈ fold_left (addAncestors ws) ps s ->
  d ∈ s \/ (d <> ws /\ d <> Path.dirname d /\ d <> "").
Proof.
  revert s. induction ps as [|p ps IH]; intros s Hd; simpl in Hd; [auto|].
  apply IH in Hd as [Hd|Hd]; [|auto].
  eapply ancestry_elements in Hd as [Hd|(? & ? & Hq)];
    [| |apply addAncestors_Some]; [auto|].
  right. repeat split; auto.
  destruct Hq as [->|[q ->]]; apply dirname_nonempty.
Qed.

Lemma folders_visited ws ps s p d :
  p ∈ ps -> d ∈ addAncestors ws [] p ->
  d ∈ fold_left (addAncestors ws) ps s.
Proof.
  revert s. induction ps as [|q ps IH]; intros s Hp Hd; simpl.
  { by apply elem_of_nil in Hp. }
  apply elem_of_cons in Hp as [->|Hp]; [|by apply IH].
  apply folders_mono.
  destruct (ancestry_visits ws _ _ [] s _ _ d
              (addAncestors_Some ws [] q) (addAncestors_Some ws s q) Hd)
    as [Hnil|Hin]; [by apply elem_of_nil in Hnil|done].
Qed.

Lemma folders_parent ws ps s p :
  p ∈ ps ->
  Path.dirname p <> ws ->
  Path.dirname p <> Path.dirname (Path.dirname p) ->
  Path.dirname p ∈ fold_left (addAncestors ws) ps s.
Proof.
  intros Hp Hws Hroot. eapply folders_visited; [exact Hp|].
  eapply ancestry_first; [apply addAncestors_Some|done..].
Qed.

(** ** The node registry and the contains edges (claims C6 and C9) *)

(** [nf] is what contains [nt]: the folder a file lies in, or the file a
    function is defined in. *)
Definition parentOf (nf nt : NodeData) : Prop :=
  (node_type nf = folder /\ node_type nt = file /\
   node_path nf = Path.dirname (node_path nt)) \/
  (node_type nf = file /\ node_type nt = function /\
   node_path nf = node_path nt).

(** A file path the keys of the registry can tell apart from the key of
    a function: not empty and without a colon. *)
Definition plainPath (p : string) : Prop := p <> "" /\ without ":" p.

Ltac plain_path :=
  split; [discriminate|cbn; repeat (split; [discriminate|]); exact I].

Ltac plain_paths :=
  apply Forall_forall;
  repeat (apply List.Forall_cons; [plain_path|]); apply List.Forall_nil.

(** A [contains] edge from [nf] to [nt]. *)
Definition containsEdge (nf nt : NodeData) (e : EdgeData) : Prop :=
  edge_type e = contains /\ edge_source e = node_id nf /\
  edge_target e = node_id nt.

Section Registry.

Variable env : Env.
Variable files : list FileRecord.

(** The folders [buildFolderNodes] collects. *)
Definition folderSet : list string :=
  match workspace env with
  | Some ws => fold_left (addAncestors ws) (file_path <$> files) []
  | None => []
  end.

(** The state of the registry during a build. *)
Record Inv (this : GraphBuilder) : Prop := {
  inv_paths : forall n, n ∈ nodes this ->
    if decide (node_type n = folder) then node_path n ∈ folderSet
    else exists f, f ∈ files /\ file_path f = node_path n;
  inv_map : forall n, n ∈ nodes this ->
    nodeMap this !! keyOf (node_type n) (node_path n) = Some (node_id n);
  inv_dom : forall k id, nodeMap this !! k = Some id ->
    exists n, n ∈ nodes this /\ k = keyOf (node_type n) (node_path n) /\
      id = node_id n;
  inv_id : forall n, n ∈ nodes this ->
    exists k, (k < nodeIdCounter this)%N /\ node_id n = idOf (node_type n) k;
  inv_nodup : NoDup (node_id <$> nodes this);
  inv_file : forall n, n ∈ nodes this -> node_type n = function ->
    exists m, m ∈ nodes this /\ node_type m = file /\
      node_path m = node_path n;
  inv_wf : wfEdges this;
  inv_keys : NoDup (keyOfEdge <$> edges this);
  inv_contains : forall e, e ∈ edges this -> edge_type e = contains ->
    exists nf nt, nf ∈ nodes this /\ nt ∈ nodes this /\ parentOf nf nt /\
      containsEdge nf nt e
}.

(** Every node, but the one with the id [skip] if there is one, is
    linked to what contains it. *)
Definition linked (skip : option string) (this : GraphBuilder) : Prop :=
  forall nf nt, nf ∈ nodes this -> nt ∈ nodes this -> parentOf nf nt ->
    skip <> Some (node_id nt) ->
    exists e, e ∈ edges this /\ containsEdge nf nt e.

Hypothesis Hplain : forall f, f ∈ files -> plainPath (file_path f).

Lemma folderSet_elements d :
  d ∈ folderSet ->
  d <> "" /\ d <> Path.dirname d /\
  exists ws, workspace env = Some ws /\ d <> ws.
Proof.
  unfold folderSet. destruct (workspace env) as [ws|].
  - intros [Hnil|(? & ? & ?)]%folders_elements.
    + by apply elem_of_nil in Hnil.
    + repeat split; eauto.
  - intros H. by apply elem_of_nil in H.
Qed.

Lemma Inv_node_wf this n : Inv this -> n ∈ nodes this -> wfId (node_id n).
Proof.
  intros HI Hn. destruct (inv_id _ HI n Hn) as (k & _ & ->).
  apply wfId_generated.
Qed.

Lemma Inv_lookup this t p id :
  Inv this -> nodeMap this !! keyOf t p = Some id ->
  exists n, n ∈ nodes this /\ node_type n = t /\ node_path n = p /\
    node_id n = id.
Proof.
  intros HI Hk. destruct (inv_dom _ HI _ _ Hk) as (n & Hn & Hkey & ->).
  apply keyOf_inj in Hkey as [-> ->]. eauto.
Qed.

Lemma Inv_lookup_wf this k id :
  Inv this -> nodeMap this !! k = Some id -> wfId id.
Proof.
  intros HI Hk. destruct (inv_dom _ HI _ _ Hk) as (n & Hn & _ & ->).
  by eapply Inv_node_wf.
Qed.

Lemma NoDup_fmap_eq {A B} (f : A -> B) (l : list A) x y :
  NoDup (f <$> l) -> x ∈ l -> y ∈ l -> f x = f y -> x = y.
Proof.
  induction l as [|a l IH]; intros Hnd Hx Hy Heq.
  { by apply elem_of_nil in Hx. }
  rewrite fmap_cons in Hnd. apply NoDup_cons in Hnd as [Ha Hnd].
  apply elem_of_cons in Hx as [->|Hx], Hy as [->|Hy]; auto.
  - destruct Ha. rewrite Heq. by apply list_elem_of_fmap_2.
  - destruct Ha. rewrite <- Heq. by apply list_elem_of_fmap_2.
Qed.

Lemma Inv_same_node this n n' :
  Inv this -> n ∈ nodes this -> n' ∈ nodes this ->
  node_type n = node_type n' -> node_path n = node_path n' -> n = n'.
Proof.
  intros HI Hn Hn' Ht Hp.
  eapply (NoDup_fmap_eq node_id); [by apply inv_nodup|done..|].
  pose proof (inv_map _ HI n Hn) as H1.
  pose proof (inv_map _ HI n' Hn') as H2.
  rewrite Ht, Hp in H1. congruence.
Qed.

Lemma Inv_same_id this n n' :
  Inv this -> n ∈ nodes this -> n' ∈ nodes this ->
  node_id n = node_id n' -> n = n'.
Proof.
  intros HI Hn Hn' Hid.
  eapply (NoDup_fmap_eq node_id); [by apply inv_nodup|done..].
Qed.

Lemma Inv_fresh this n t :
  Inv this -> n ∈ nodes this -> node_id n <> idOf t (nodeIdCounter this).
Proof.
  intros HI Hn Heq. destruct (inv_id _ HI n Hn) as (k & Hk & Hid).
  rewrite Hid in Heq. apply idOf_inj in Heq as [_ ->]. lia.
Qed.

(** *** The elementary changes keep the registry in order *)

Lemma Inv_withCounter this k :
  Inv this -> (nodeIdCounter this <= k)%N -> Inv (withCounter k this).
Proof.
  intros [] Hk. split; simpl; auto.
  intros n Hn. destruct (inv_id0 n Hn) as (j & Hj & Hid).
  exists j. split; [lia|done].
Qed.

Lemma nodeKey_keyOf nd :
  node_path nd <> "" -> nodeKey nd = keyOf (node_type nd) (node_path nd).
Proof.
  intros Hp. unfold nodeKey, keyOf.
  by rewrite orElse_truthy by by apply truthy_nonempty.
Qed.

Lemma Inv_withNode this nd :
  Inv this ->
  node_path nd <> "" ->
  nodeMap this !! keyOf (node_type nd) (node_path nd) = None ->
  (exists k, (k < nodeIdCounter this)%N /\
     node_id nd = idOf (node_type nd) k) ->
  (forall n, n ∈ nodes this -> node_id n <> node_id nd) ->
  (if decide (node_type nd = folder) then node_path nd ∈ folderSet
   else exists f, f ∈ files /\ file_path f = node_path nd) ->
  (node_type nd = function ->
   exists m, m ∈ nodes this /\ node_type m = file /\
     node_path m = node_path nd) ->
  Inv (withNode nd this).
Proof.
  intros HI Hpath Hkey Hid Hfresh Hp Hfile.
  split; simpl; rewrite ?nodeKey_keyOf by done.
  - intros n [Hn | ->%list_elem_of_singleton]%elem_of_app; [|done].
    by apply (inv_paths _ HI).
  - intros n [Hn | ->%list_elem_of_singleton]%elem_of_app.
    + rewrite lookup_insert_ne; [by apply (inv_map _ HI)|].
      intros Heq. rewrite Heq in Hkey.
      by rewrite (inv_map _ HI n Hn) in Hkey.
    + by rewrite lookup_insert_eq.
  - intros k id. rewrite lookup_insert.
    destruct (decide (keyOf (node_type nd) (node_path nd) = k)) as [Hk|Hk].
    + intros [= <-]. exists nd. rewrite elem_of_app, list_elem_of_singleton.
      auto.
    + intros (n & Hn & ? & ?)%(inv_dom _ HI). exists n.
      rewrite elem_of_app. auto.
  - intros n [Hn | ->%list_elem_of_singleton]%elem_of_app; [|done].
    by apply (inv_id _ HI).
  - rewrite fmap_app. apply NoDup_app. split; [by apply (inv_nodup _ HI)|].
    split; [|apply NoDup_singleton].
    intros id (n & -> & Hn)%list_elem_of_fmap Hin. simpl in Hin.
    apply list_elem_of_singleton in Hin. by apply (Hfresh n).
  - intros n [Hn | ->%list_elem_of_singleton]%elem_of_app Ht.
    + destruct (inv_file _ HI n Hn Ht) as (m & Hm & ? & ?).
      exists m. rewrite elem_of_app. auto.
    + destruct (Hfile Ht) as (m & Hm & ? & ?).
      exists m. rewrite elem_of_app. auto.
  - apply (inv_wf _ HI).
  - apply (inv_keys _ HI).
  - intros e He Ht.
    destruct (inv_contains _ HI e He Ht) as (nf & nt & ? & ? & ? & ?).
    exists nf, nt. rewrite !elem_of_app. auto.
Qed.

Lemma addEdge_Normal spec this :
  addEdge spec this = Normal tt (after (addEdge spec this)).
Proof.
  destruct (addEdge_cases spec this) as [(e & _ & _ & ->)|[_ ->]]; done.
Qed.

Lemma addEdge_nodeMap spec this :
  nodeMap (after (addEdge spec this)) = nodeMap this /\
  nodeIdCounter (after (addEdge spec this)) = nodeIdCounter this.
Proof.
  destruct (addEdge_cases spec this) as [(e & _ & _ & ->)|[_ ->]]; done.
Qed.

(** After [addEdge] on generated ids an edge with the triple is
    stored. *)
Lemma addEdge_stores spec this :
  wfEdges this -> wfSpec spec -> stored spec (after (addEdge spec this)).
Proof.
  intros Hwf Hspec. destruct (decide_rel (∈) (tripleOfSpec spec)
                                (tripleOf <$> edges this)) as [Hin|Hout].
  - apply list_elem_of_fmap in Hin as (e & He & Hin).
    rewrite addEdge_stored_drops; [|by exists e]. by exists e.
  - rewrite addEdge_fresh_appends; [|done..|].
    + exists (newEdge (length (edges this)) spec). split; [|done].
      simpl. rewrite elem_of_app, list_elem_of_singleton. auto.
    + intros (e & He & Ht). apply Hout, list_elem_of_fmap. eauto.
Qed.

Lemma Inv_addEdge this spec :
  Inv this -> wfSpec spec ->
  (spec_type spec = contains ->
   exists nf nt, nf ∈ nodes this /\ nt ∈ nodes this /\ parentOf nf nt /\
     spec_source spec = node_id nf /\ spec_target spec = node_id nt) ->
  Inv (after (addEdge spec this)).
Proof.
  intros HI Hspec Hcontains.
  pose proof (addEdge_keeps_keys spec this (inv_keys _ HI)) as Hkeys.
  pose proof (addEdge_wfEdges spec this Hspec (inv_wf _ HI)) as Hwf.
  destruct (addEdge_cases spec this) as [(e & _ & _ & Heq)|[_ Heq]];
    rewrite Heq in *; simpl in *; [done|].
  destruct HI. split; simpl; auto.
  intros e [He | ->%list_elem_of_singleton]%elem_of_app Ht; [auto|].
  destruct (Hcontains Ht) as (nf & nt & ? & ? & ? & ? & ?).
  exists nf, nt. repeat split; auto.
Qed.

Lemma linked_addEdge skip this spec :
  linked skip this -> linked skip (after (addEdge spec this)).
Proof.
  intros HL nf nt Hnf Hnt Hp Hskip. rewrite addEdge_nodes in Hnf, Hnt.
  destruct (HL nf nt Hnf Hnt Hp Hskip) as (e & He & Hc).
  exists e. split; [|done].
  destruct (step_edges_prefix any any _ _ (step_edge _ _ this spec I))
    as [k ->].
  apply elem_of_app. auto.
Qed.

Lemma parentOf_types nf nt : parentOf nf nt -> node_type nf <> function.
Proof. intros [(H & _)|(H & _)]; rewrite H; done. Qed.

Lemma linked_withNode this nd :
  linked None this ->
  (forall nt, nt ∈ nodes this -> ~ parentOf nd nt) ->
  linked (Some (node_id nd)) (withNode nd this).
Proof.
  intros HL Hnew nf nt Hnf Hnt Hp Hskip. simpl in *.
  apply elem_of_app in Hnt as [Hnt | ->%list_elem_of_singleton];
    [|by destruct Hskip].
  apply elem_of_app in Hnf as [Hnf | ->%list_elem_of_singleton];
    [|by destruct (Hnew nt)].
  apply HL; auto.
Qed.

Lemma linked_close id this :
  linked (Some id) this ->
  (forall nf nt, nf ∈ nodes this -> nt ∈ nodes this -> parentOf nf nt ->
     node_id nt = id -> exists e, e ∈ edges this /\ containsEdge nf nt e) ->
  linked None this.
Proof.
  intros HL Hskip nf nt Hnf Hnt Hp _.
  destruct (decide (node_id nt = id)) as [Hs|Hs]; [eauto|].
  apply HL; auto. by intros [= ->].
Qed.

(** *** The passes keep the registry in order *)

Lemma without_middle c a b : ~ without c (a +:+ String c b).
Proof.
  induction a as [|x a IH]; intros H.
  - by destruct H.
  - destruct H as [_ H]. by apply IH.
Qed.

(** Registry in order, every node linked. *)
Definition Good (this : GraphBuilder) : Prop := Inv this /\ linked None this.

(** [fid] is the id of the node of the file [f]. *)
Definition fileNodeOf (f : FileRecord) (fid : string) (this : GraphBuilder)
  : Prop :=
  exists m, m ∈ nodes this /\ node_type m = file /\
    node_path m = file_path f /\ node_id m = fid.

(** The key of a function is on file for no node: the paths of the nodes
    have no colon. *)
Lemma function_key_absent this f func :
  Inv this -> f ∈ files ->
  nodeMap this !! keyOf function
    (file_path f +:+ ":" +:+ func_name func +:+ ":" +:+
       JS.numToString (func_line func)) = None.
Proof.
  intros HI Hf.
  destruct (nodeMap this !! _) as [id|] eqn:Hk; [|done].
  apply Inv_lookup in Hk as (n & Hn & Ht & Hp & _); [|done].
  pose proof (inv_paths _ HI n Hn) as Hpaths. rewrite Ht in Hpaths.
  simpl in Hpaths. destruct Hpaths as (f' & Hf' & Heq).
  destruct (Hplain f' Hf') as [_ Hcolon].
  rewrite Heq, Hp in Hcolon. by apply without_middle in Hcolon.
Qed.

Lemma addNode_absent this nd :
  Inv this -> node_path nd <> "" ->
  (forall id, nodeMap this !! nodeKey nd = Some id -> JS.truthy id = false) ->
  nodeMap this !! keyOf (node_type nd) (node_path nd) = None.
Proof.
  intros HI Hp Hfalsy. rewrite nodeKey_keyOf in Hfalsy by done.
  destruct (nodeMap this !! _) as [id|] eqn:Hk; [|done].
  pose proof (wfId_truthy id (Inv_lookup_wf _ _ _ HI Hk)) as Ht.
  by rewrite Hfalsy in Ht.
Qed.

Lemma hoare_buildFunctionNode f fid func :
  f ∈ files ->
  hoare (fun this => Good this /\ fileNodeOf f fid this)
    (buildFunctionNode f fid func)
    (fun _ this => Good this /\ fileNodeOf f fid this).
Proof.
  intros Hf this [[HI HL] (m & Hm & Hmt & Hmp & Hmid)].
  destruct (Hplain f Hf) as [Hpath _].
  unfold buildFunctionNode, bind.
  destruct (getNodeId_cases function
              (file_path f +:+ ":" +:+ func_name func +:+ ":" +:+
                 JS.numToString (func_line func)) this)
    as [(id & Hk & _)|[_ ->]].
  { by rewrite function_key_absent in Hk. }
  set (c := nodeIdCounter this).
  set (this1 := withCounter (c + 1) this).
  assert (Inv this1) as HI1 by (apply Inv_withCounter; [done|lia]).
  set (nd := {| node_id := idOf function c; node_label := func_name func;
                node_type := function; node_path := file_path f;
                node_extra := _ |}).
  destruct (addNode_cases nd this1) as [(id' & Hk' & _ & ->)|[Hfalsy ->]].
  - rewrite nodeKey_keyOf in Hk' by done.
    apply Inv_lookup in Hk' as (n & Hn & Hnt & Hnp & <-); [|done].
    simpl in Hnt, Hnp.
    rewrite addEdge_Normal. split; [split|].
    + apply Inv_addEdge; [done| |].
      * split; simpl; [subst fid|]; by eapply Inv_node_wf.
      * intros _. exists m, n. repeat split; auto.
        right. repeat split; auto; congruence.
    + by apply linked_addEdge.
    + exists m. by rewrite addEdge_nodes.
  - pose proof (addNode_absent this1 nd HI1 Hpath Hfalsy) as Hnone.
    set (this2 := withNode nd this1).
    assert (Inv this2) as HI2.
    { apply Inv_withNode; try done.
      - exists c. split; [simpl; lia|done].
      - intros n Hn. by apply (Inv_fresh this).
      - simpl. eauto.
      - intros _. by exists m. }
    assert (m ∈ nodes this2) as Hm2.
    { simpl. apply elem_of_app. auto. }
    assert (nd ∈ nodes this2) as Hnd2.
    { simpl. rewrite elem_of_app, list_elem_of_singleton. auto. }
    set (spec := {| spec_source := fid; spec_target := node_id nd;
                    spec_type := contains; spec_label := "" |}).
    assert (wfSpec spec) as Hspec.
    { split; simpl; [subst fid; by eapply Inv_node_wf|apply wfId_generated]. }
    rewrite addEdge_Normal. split; [split|].
    + apply Inv_addEdge; [done..|].
      intros _. exists m, nd. repeat split; auto.
      right. repeat split; auto.
    + apply (linked_close (node_id nd)).
      { apply linked_addEdge, linked_withNode; [done|].
        intros nt _ Hp. by apply parentOf_types in Hp. }
      intros nf nt Hnf Hnt Hp Hid. rewrite addEdge_nodes in Hnf, Hnt.
      apply (Inv_same_id _ _ _ HI2 Hnt Hnd2) in Hid. subst nt.
      destruct Hp as [(_ & Hfile & _)|(Hft & _ & Hfp)]; [done|].
      assert (nf = m) as ->.
      { simpl in Hfp. apply (Inv_same_node this2); auto; congruence. }
      destruct (addEdge_stores spec this2 (inv_wf _ HI2) Hspec)
        as (e & He & Ht).
      exists e. split; [done|].
      unfold tripleOf, tripleOfSpec in Ht. simpl in Ht.
      injection Ht as ? ? ?. repeat split; auto. congruence.
    + exists m. by rewrite addEdge_nodes.
Qed.

Lemma linked_weaken id this : linked None this -> linked (Some id) this.
Proof. intros HL nf nt Hnf Hnt Hp _. by apply HL. Qed.

(** The first half of the body of [buildFileNodes]: the node of the file
    is there afterwards, linked or not. *)
Lemma hoare_file_node f {A} (K : string -> M A) Q extra :
  f ∈ files ->
  (forall fid,
     hoare (fun this => Inv this /\ linked (Some fid) this /\
                        fileNodeOf f fid this)
       (K fid) Q) ->
  hoare Good
    (id <- getNodeId file (file_path f) ;;
     functions <- field (file_functions f) ;;
     imports <- field (file_imports f) ;;
     exports <- field (file_exports f) ;;
     fileNodeId <-
       addNode
         {| node_id := id; node_label := Path.basename (file_path f);
            node_type := file; node_path := file_path f;
            node_extra := extra functions imports exports |} ;;
     K fileNodeId)
    Q.
Proof.
  intros Hf HK this [HI HL].
  destruct (Hplain f Hf) as [Hpath _].
  unfold bind, field.
  destruct (getNodeId_cases file (file_path f) this)
    as [(id & Hk & ->)|[Hk ->]];
    destruct (file_functions f) as [fs|]; try done;
    destruct (file_imports f) as [ims|]; try done;
    destruct (file_exports f) as [es|]; try done.
  - set (nd := {| node_id := id; node_type := file |}).
    destruct (addNode_cases nd this) as [(id' & Hk' & _ & ->)|[Hfalsy ->]].
    + rewrite nodeKey_keyOf in Hk' by done. simpl in Hk'.
      apply Inv_lookup in Hk' as (m & Hm & Hmt & Hmp & <-); [|done].
      apply HK. split; [done|]. split; [by apply linked_weaken|].
      by exists m.
    + pose proof (addNode_absent this nd HI Hpath Hfalsy) as Hnone.
      simpl in Hnone. by rewrite Hk in Hnone.
  - set (c := nodeIdCounter this).
    set (this1 := withCounter (c + 1) this).
    assert (Inv this1) as HI1 by (apply Inv_withCounter; [done|lia]).
    set (nd := {| node_id := idOf file c; node_type := file |}).
    destruct (addNode_cases nd this1) as [(id' & Hk' & _ & ->)|[_ ->]].
    + rewrite nodeKey_keyOf in Hk' by done. simpl in Hk'.
      by rewrite Hk in Hk'.
    + apply HK. split; [|split].
      * apply Inv_withNode; try done.
        -- exists c. split; [simpl; lia|done].
        -- intros n Hn. by apply (Inv_fresh this).
        -- simpl. eauto.
      * apply linked_withNode; [done|].
        intros nt Hnt [(Hfolder & _)|(_ & Hnt_fun & Hnt_path)]; [done|].
        destruct (inv_file _ HI nt Hnt Hnt_fun) as (m & Hm & Hmt & Hmp).
        pose proof (inv_map _ HI m Hm) as Hmk.
        simpl in Hnt_path. rewrite Hmt, Hmp, <- Hnt_path in Hmk.
        simpl in Hk. by rewrite Hk in Hmk.
      * exists nd. simpl. rewrite elem_of_app, list_elem_of_singleton. auto.
Qed.

(** The second half: the node of the file is linked to the node of its
    folder when there is one. *)
Lemma hoare_link_parent f fid {A} (K : M A) Q :
  hoare (fun this => Good this /\ fileNodeOf f fid this) K Q ->
  hoare (fun this => Inv this /\ linked (Some fid) this /\
                     fileNodeOf f fid this)
    (parentNodeId <- getNodeId folder (Path.dirname (file_path f)) ;;
     has <- nodeMapHas ("folder:" +:+ Path.dirname (file_path f)) ;;
     (if has
      then addEdge
             {| spec_source := parentNodeId; spec_target := fid;
                spec_type := contains; spec_label := "" |}
      else ret tt) ;;;
     K)
    Q.
Proof.
  intros HK this (HI & HL & m & Hm & Hmt & Hmp & Hmid).
  unfold bind, nodeMapHas.
  change ("folder:" +:+ Path.dirname (file_path f))
    with (keyOf folder (Path.dirname (file_path f))).
  destruct (getNodeId_cases folder (Path.dirname (file_path f)) this)
    as [(pid & Hk & ->)|[Hk ->]]; simpl; rewrite Hk; simpl.
  - apply Inv_lookup in Hk as (d & Hd & Hdt & Hdp & <-); [|done].
    set (spec := {| spec_source := node_id d; spec_target := fid;
                    spec_type := contains; spec_label := "" |}).
    assert (wfSpec spec) as Hspec.
    { split; simpl; [|subst fid]; by eapply Inv_node_wf. }
    assert (parentOf d m) as Hparent.
    { left. repeat split; auto. congruence. }
    rewrite addEdge_Normal. apply HK. split; [split|].
    + apply Inv_addEdge; [done..|]. intros _. by exists d, m.
    + apply (linked_close fid); [by apply linked_addEdge|].
      intros nf nt Hnf Hnt Hp Hid. rewrite addEdge_nodes in Hnf, Hnt.
      rewrite <- Hmid in Hid.
      apply (Inv_same_id _ _ _ HI Hnt Hm) in Hid. subst nt.
      destruct Hp as [(Hft & _ & Hfp)|(_ & Hfun & _)]; [|congruence].
      assert (nf = d) as ->.
      { apply (Inv_same_node this); auto; congruence. }
      destruct (addEdge_stores spec this (inv_wf _ HI) Hspec)
        as (e & He & Ht).
      exists e. split; [done|].
      unfold tripleOf, tripleOfSpec in Ht. simpl in Ht.
      injection Ht as ? ? ?. repeat split; auto. congruence.
    + exists m. by rewrite addEdge_nodes.
  - apply HK. split; [split|].
    + apply Inv_withCounter; [done|lia].
    + apply (linked_close fid); [done|].
      intros nf nt Hnf Hnt Hp Hid. simpl in Hnf, Hnt.
      rewrite <- Hmid in Hid.
      apply (Inv_same_id _ _ _ HI Hnt Hm) in Hid. subst nt.
      destruct Hp as [(Hft & _ & Hfp)|(_ & Hfun & _)]; [|congruence].
      pose proof (inv_map _ HI nf Hnf) as Hnfk.
      rewrite Hft, Hfp, Hmp in Hnfk. by rewrite Hk in Hnfk.
    + by exists m.
Qed.

Lemma hoare_buildFileNode f :
  f ∈ files -> hoare Good (buildFileNode env f) (fun _ => Good).
Proof.
  intros Hf. unfold buildFileNode.
  apply (hoare_file_node f
           (fun fileNodeId =>
              parentNodeId <- getNodeId folder (Path.dirname (file_path f)) ;;
              has <- nodeMapHas ("folder:" +:+ Path.dirname (file_path f)) ;;
              (if has
               then addEdge
                      {| spec_source := parentNodeId;
                         spec_target := fileNodeId;
                         spec_type := contains; spec_label := "" |}
               else ret tt) ;;;
              functions <- field (file_functions f) ;;
              forEach (buildFunctionNode f fileNodeId) functions)
           _
           (fun functions imports exports =>
              FileExtra
                match workspace env with
                | Some ws => Path.relative (cwd env) ws (file_path f)
                | None => file_path f
                end
                (file_language f) (length functions) (length imports)
                (length exports)));
    [done|].
  intros fid. apply hoare_link_parent.
  eapply hoare_bind; [apply hoare_field|].
  intros fs. apply hoare_pure. intros _.
  eapply hoare_conseq;
    [apply (hoare_forEach (fun this => Good this /\ fileNodeOf f fid this))
    |done|by intros _ this [H _]].
  intros func _. by apply hoare_buildFunctionNode.
Qed.

Lemma hoare_buildFileNodes :
  hoare Good (buildFileNodes env files) (fun _ => Good).
Proof.
  unfold buildFileNodes. apply hoare_forEach.
  intros f Hf. by apply hoare_buildFileNode.
Qed.

(** *** The edge pass *)

Lemma hoare_getNodeId_Good t p :
  hoare Good (getNodeId t p) (fun id this => wfId id /\ Good this).
Proof.
  intros this [HI HL].
  destruct (getNodeId_cases t p this) as [(id & Hk & ->)|[Hk ->]].
  - split; [by eapply Inv_lookup_wf|done].
  - split; [apply wfId_generated|]. split; [|done].
    apply Inv_withCounter; [done|lia].
Qed.

Lemma hoare_addEdge_Good spec :
  wfId (spec_source spec) -> wfId (spec_target spec) ->
  spec_type spec <> contains ->
  hoare Good (addEdge spec) (fun _ => Good).
Proof.
  intros Hs Ht Hty this [HI HL]. rewrite addEdge_Normal. split.
  - by apply Inv_addEdge.
  - by apply linked_addEdge.
Qed.

Ltac good_step :=
  lazymatch goal with
  | |- hoare _ (bind (getNodeId _ _) _) _ =>
      eapply hoare_bind;
      [apply hoare_getNodeId_Good|intros ?; apply hoare_pure; intros ?]
  | |- hoare _ (bind (field _) _) _ =>
      eapply hoare_bind;
      [apply hoare_field|intros ?; apply hoare_pure; intros ?]
  | |- hoare _ (bind (forEach _ _) _) _ =>
      apply (hoare_bind _ _ _ (fun _ => Good)); [|intros ?]
  | |- hoare _ (forEach _ _) _ => apply hoare_forEach; intros ? _
  | |- hoare _ (if ?b then _ else _) _ => destruct b
  | |- hoare _ (match ?o with Some _ => _ | None => _ end) _ => destruct o
  | |- hoare _ (ret _) _ => apply hoare_ret
  | |- hoare _ (addEdge _) _ =>
      apply hoare_addEdge_Good; simpl; [assumption|assumption|done]
  end.

Lemma Good_resolveImportTarget src known :
  hoare Good (resolveImportTarget src known)
    (fun o this => (forall id, o = Some id -> wfId id) /\ Good this).
Proof.
  rewrite resolveImportTarget_resolvedPath.
  destruct (resolvedPath src known) as [p|].
  - eapply hoare_bind; [apply hoare_getNodeId_Good|].
    intros id this [Hid H]. simpl. split; [|done]. by intros ? [= <-].
  - intros this H. simpl. done.
Qed.

Lemma hoare_buildEdges : hoare Good (buildEdges files) (fun _ => Good).
Proof.
  unfold buildEdges, buildFileEdges, buildImportEdge, buildCallEdge.
  repeat good_step.
  eapply hoare_bind; [apply Good_resolveImportTarget|].
  intros [target|]; apply hoare_pure; intros Ht; repeat good_step.
  apply hoare_addEdge_Good; simpl; auto.
Qed.

(** *** The folder pass *)

Lemma step_keeps_key T U this this' k :
  step T U this this' ->
  is_Some (nodeMap this !! k) -> is_Some (nodeMap this' !! k).
Proof.
  intros [s c|s nd _|s spec _] Hk; simpl.
  - done.
  - destruct (addNode_cases nd s) as [(id & _ & _ & ->)|[_ ->]]; [done|].
    simpl. rewrite lookup_insert. by case_decide.
  - by rewrite (proj1 (addEdge_nodeMap spec s)).
Qed.

Lemma steps_keep_key T U this this' k :
  rtc (step T U) this this' ->
  is_Some (nodeMap this !! k) -> is_Some (nodeMap this' !! k).
Proof. induction 1; eauto using step_keeps_key. Qed.

(** A loop whose rounds each establish something that later rounds
    keep. *)
Lemma hoare_forEach_each {A} (I : GraphBuilder -> Prop)
    (R : A -> GraphBuilder -> Prop) (f : A -> M unit) l :
  (forall x, x ∈ l -> hoare I (f x) (fun _ this => I this /\ R x this)) ->
  (forall x y this, R x this -> R x (after (f y this))) ->
  hoare I (forEach f l) (fun _ this => I this /\ forall x, x ∈ l -> R x this).
Proof.
  intros Hf Hkeep.
  assert (forall done,
    (forall x, x ∈ l -> hoare I (f x) (fun _ this => I this /\ R x this)) ->
    hoare (fun this => I this /\ forall x, x ∈ done -> R x this)
      (forEach f l)
      (fun _ this => I this /\ forall x, x ∈ done ++ l -> R x this)) as H.
  { clear Hf. induction l as [|x l IH]; intros done Hf; simpl.
    - intros this H. simpl. by rewrite app_nil_r.
    - apply (hoare_bind _ _ _
               (fun _ this =>
                  I this /\ forall y, y ∈ done ++ [x] -> R y this)).
      + intros this [HI Hdone]. pose proof (Hf x ltac:(left) this HI) as Hx.
        pose proof (fun y Hy => Hkeep y x this (Hdone y Hy)) as Hk.
        destruct (f x this) as [[] s|s]; [|done]. simpl in Hk.
        split; [tauto|].
        intros y [Hy | ->%list_elem_of_singleton]%elem_of_app; [auto|tauto].
      + intros ?. eapply hoare_conseq; [apply (IH (done ++ [x]))|done|].
        * intros y Hy. apply Hf. by right.
        * intros _ this [HI Hall]. split; [done|].
          intros y Hy. apply Hall. by rewrite <- app_assoc.
  }
  eapply hoare_conseq; [apply (H [] Hf)| |done].
  intros this HI. split; [done|]. intros x Hx. by apply elem_of_nil in Hx.
Qed.

(** During the folder pass all nodes are folders and there is no edge
    yet. *)
Definition foldersOnly (this : GraphBuilder) : Prop :=
  Inv this /\ (forall n, n ∈ nodes this -> node_type n = folder) /\
  edges this = [].

Lemma foldersOnly_Good this : foldersOnly this -> Good this.
Proof.
  intros (HI & Hall & _). split; [done|].
  intros nf nt _ Hnt Hp _. apply Hall in Hnt.
  destruct Hp as [(_ & H & _)|(_ & H & _)]; congruence.
Qed.

Lemma hoare_folder_node d label extra :
  d ∈ folderSet ->
  hoare foldersOnly
    (id <- getNodeId folder d ;;
     addNode
       {| node_id := id; node_label := label; node_type := folder;
          node_path := d; node_extra := extra |} ;;;
     ret tt)
    (fun _ this =>
       foldersOnly this /\ is_Some (nodeMap this !! keyOf folder d)).
Proof.
  intros Hd this (HI & Hall & Hedges).
  destruct (folderSet_elements d Hd) as (Hpath & _).
  unfold bind, ret.
  destruct (getNodeId_cases folder d this) as [(id & Hk & ->)|[Hk ->]].
  - set (nd := {| node_id := id; node_type := folder |}).
    destruct (addNode_cases nd this) as [(id' & Hk' & _ & ->)|[Hfalsy ->]].
    + by rewrite Hk.
    + pose proof (addNode_absent this nd HI Hpath Hfalsy) as Hnone.
      simpl in Hnone. by rewrite Hk in Hnone.
  - set (c := nodeIdCounter this).
    set (this1 := withCounter (c + 1) this).
    assert (Inv this1) as HI1 by (apply Inv_withCounter; [done|lia]).
    set (nd := {| node_id := idOf folder c; node_type := folder |}).
    destruct (addNode_cases nd this1) as [(id' & Hk' & _ & ->)|[_ ->]].
    + rewrite nodeKey_keyOf in Hk' by done. simpl in Hk'.
      by rewrite Hk in Hk'.
    + split; [split; [|split]|].
      * apply Inv_withNode; try done.
        -- exists c. split; [simpl; lia|done].
        -- intros n Hn. by apply (Inv_fresh this).
      * intros n [Hn | ->%list_elem_of_singleton]%elem_of_app; auto.
      * done.
      * simpl. rewrite nodeKey_keyOf by done. simpl.
        by rewrite lookup_insert_eq.
Qed.

Lemma Inv_empty : Inv emptyBuilder.
Proof.
  split; simpl; try (intros ? H; by apply elem_of_nil in H);
    try constructor.
  intros k id H. by rewrite lookup_empty in H.
Qed.

(** Every collected folder is on file. *)
Definition foldersFiled (this : GraphBuilder) : Prop :=
  forall d, d ∈ folderSet -> is_Some (nodeMap this !! keyOf folder d).

Lemma hoare_buildFolderNodes :
  hoare foldersOnly (buildFolderNodes env files)
    (fun _ this => foldersOnly this /\ foldersFiled this).
Proof.
  unfold buildFolderNodes, foldersFiled, folderSet.
  destruct (workspace env) as [ws|] eqn:Hws.
  - eapply hoare_conseq;
      [apply (hoare_forEach_each foldersOnly
                (fun d this => is_Some (nodeMap this !! keyOf folder d)))
      |done|].
    + intros d Hd. apply hoare_folder_node.
      unfold folderSet. by rewrite Hws.
    + intros d d' this Hk.
      eapply (steps_keep_key any any); [|exact Hk].
      match goal with
      | |- rtc _ _ (after (?m this)) =>
          assert (footprint any any m) as Hm
            by (repeat footprint_step)
      end.
      apply Hm.
    + intros _ this [H Hall]. split; done.
  - intros this H. simpl. split; [done|].
    intros d Hd. by apply elem_of_nil in Hd.
Qed.

(** *** A whole build *)

Lemma foldersOnly_empty : foldersOnly emptyBuilder.
Proof.
  split; [apply Inv_empty|]. split; [|done].
  intros n Hn. by apply elem_of_nil in Hn.
Qed.

Lemma steps_keep_filed this this' :
  rtc (step any any) this this' ->
  foldersFiled this -> foldersFiled this'.
Proof. intros Hsteps H d Hd. eapply steps_keep_key; eauto. Qed.

(** The builder a build leaves behind, and the one between the folder
    pass and the others. *)
Lemma buildGraph_Good this g this' :
  buildGraph env files this = Normal g this' ->
  graph_nodes g = nodes this' /\ graph_edges g = edges this' /\
  Good this' /\ foldersFiled this'.
Proof.
  intros H. destruct (buildGraph_footprint _ _ _ _ _ H) as (-> & -> & _).
  split; [done|]. split; [done|].
  apply buildGraph_passes in H
    as (_ & [[Hnil ->]|(s1 & s2 & H1 & H2 & H3)]).
  { split; [apply foldersOnly_Good, foldersOnly_empty|].
    intros d Hd. unfold folderSet in Hd. rewrite Hnil in Hd. simpl in Hd.
    destruct (workspace env); by apply elem_of_nil in Hd. }
  pose proof (hoare_buildFolderNodes _ foldersOnly_empty) as P1.
  rewrite H1 in P1. destruct P1 as [G1 F1]. apply foldersOnly_Good in G1.
  pose proof (hoare_buildFileNodes _ G1) as G2. rewrite H2 in G2.
  pose proof (hoare_buildEdges _ G2) as G3. rewrite H3 in G3.
  split; [done|].
  pose proof (footprint_buildFileNodes any any env files I I I s1)
    as S2.
  pose proof (footprint_buildEdges any any files I I s2) as S3.
  rewrite H2 in S2. rewrite H3 in S3. simpl in *.
  eapply steps_keep_filed; [exact S3|].
  eapply steps_keep_filed; [exact S2|done].
Qed.

End Registry.

(** *** Counting *)

Lemma NoDup_fmap_filter {A B} (f : A -> B) (P : A -> Prop)
    `{!forall x, Decision (P x)} (l : list A) :
  NoDup (f <$> l) -> NoDup (f <$> filter P l).
Proof.
  intros Hnd. eapply sublist_NoDup; [exact Hnd|].
  apply fmap_sublist, sublist_filter.
Qed.

(** A list without repetition under [f] whose members all have the same
    image has one member at most. *)
Lemma at_most_one {A B} (f : A -> B) (l : list A) y :
  NoDup (f <$> l) -> (forall x, x ∈ l -> f x = y) ->
  l = [] \/ exists x, l = [x].
Proof.
  intros Hnd Hall. destruct l as [|a [|b l]]; [by left|right; eauto|].
  exfalso. rewrite !fmap_cons in Hnd. apply NoDup_cons in Hnd as [Ha _].
  apply Ha. rewrite (Hall a), <- (Hall b).
  - left.
  - right. left.
  - left.
Qed.

Lemma exactly_one {A B} (f : A -> B) (l : list A) y x :
  NoDup (f <$> l) -> (forall x, x ∈ l -> f x = y) -> x ∈ l -> l = [x].
Proof.
  intros Hnd Hall Hx.
  destruct (at_most_one f l y Hnd Hall) as [->|[x' ->]].
  - by apply elem_of_nil in Hx.
  - by apply list_elem_of_singleton in Hx as ->.
Qed.

(** ** Claim C6 *)

(** The [contains] edges of a graph that end in a node. *)
Definition incoming (g : GraphData) (n : NodeData) : list EdgeData :=
  filter (fun e => edge_type e = contains /\ edge_target e = node_id n)
    (graph_edges g).

(** The directory of the path [p] is one [buildFolderNodes] registers:
    there is a workspace folder, and the directory is neither that folder
    nor its own parent. *)
Definition inFolder (env : Env) (p : string) : Prop :=
  exists ws, workspace env = Some ws /\ Path.dirname p <> ws /\
    Path.dirname p <> Path.dirname (Path.dirname p).

(** [C6], the claim as stated fails: the file [/x.js] does not lie
    directly in the workspace folder [/w], and its node has no incoming
    [contains] edge: the walk stops at [/], which is its own parent, and
    registers no folder for it. *)
Lemma C6_root_file_has_no_parent :
  exists g this' n,
    buildGraph sampleEnv rootFile emptyBuilder = Normal g this' /\
    n ∈ graph_nodes g /\ node_type n = file /\
    Some (Path.dirname (node_path n)) <> workspace sampleEnv /\
    incoming g n = [].
Proof.
  eexists _, _, _. split; [vm_compute; reflexivity|].
  split; [left|]. split; [reflexivity|]. split; [by_evaluation|reflexivity].
Qed.

Section Contains.

Variable env : Env.
Variable files : list FileRecord.
Variable this : GraphBuilder.
Variable g : GraphData.
Hypothesis Hnodes : graph_nodes g = nodes this.
Hypothesis Hedges : graph_edges g = edges this.
Hypothesis HI : Inv env files this.
Hypothesis HL : linked None this.

Lemma elem_of_incoming n e :
  e ∈ incoming g n <->
  e ∈ edges this /\ edge_type e = contains /\ edge_target e = node_id n.
Proof. unfold incoming. rewrite list_elem_of_filter, Hedges. tauto. Qed.

(** What contains a node is determined by the node. *)
Lemma parent_unique m m' n :
  m ∈ nodes this -> m' ∈ nodes this ->
  parentOf m n -> parentOf m' n -> m = m'.
Proof.
  intros Hm Hm' [(? & ? & ?)|(? & ? & ?)] [(? & ? & ?)|(? & ? & ?)];
    try congruence; eapply Inv_same_node; eauto; congruence.
Qed.

(** An incoming edge comes from what contains the node. *)
Lemma incoming_source n e :
  n ∈ nodes this -> e ∈ incoming g n ->
  exists m, m ∈ nodes this /\ parentOf m n /\ edge_source e = node_id m.
Proof.
  intros Hn (He & Ht & Htarget)%elem_of_incoming.
  destruct (inv_contains _ _ _ HI e He Ht)
    as (nf & nt & Hnf & Hnt & Hp & _ & Hs & Htg).
  assert (nt = n) as ->.
  { eapply Inv_same_id; eauto. congruence. }
  eauto.
Qed.

Lemma incoming_one m n :
  m ∈ nodes this -> n ∈ nodes this -> parentOf m n ->
  exists e, incoming g n = [e] /\ edge_source e = node_id m.
Proof.
  intros Hm Hn Hp.
  destruct (HL m n Hm Hn Hp) as (e & He & Ht & Hs & Htg); [done|].
  exists e. split; [|done].
  apply (exactly_one keyOfEdge _ (keyOfEdge e)).
  - unfold incoming. rewrite Hedges.
    apply NoDup_fmap_filter, (inv_keys _ _ _ HI).
  - intros x Hx. apply keyOfEdge_triple.
    destruct (incoming_source n x Hn Hx) as (m' & Hm' & Hp' & Hs').
    apply elem_of_incoming in Hx as (_ & Hxt & Hxtg).
    rewrite (parent_unique m' m n Hm' Hm Hp' Hp) in Hs'.
    unfold tripleOf. congruence.
  - apply elem_of_incoming. auto.
Qed.

Lemma incoming_none n :
  n ∈ nodes this -> (forall m, m ∈ nodes this -> ~ parentOf m n) ->
  incoming g n = [].
Proof.
  intros Hn Hnone. destruct (incoming g n) as [|e l] eqn:Heq; [done|].
  destruct (incoming_source n e Hn) as (m & Hm & Hp & _).
  { rewrite Heq. left. }
  by destruct (Hnone m Hm).
Qed.

End Contains.

(** [C6], as amended: in a graph [buildGraph] returns for file records
    whose paths are not empty and have no colon, every function node has
    exactly one incoming [contains] edge, and it comes from the node of
    the file with the path of the function; a file node has exactly one
    incoming [contains] edge, from the folder node of its directory, when
    there is a workspace folder and the directory is neither that folder
    nor its own parent ([/] or [.]), and no incoming [contains] edge
    otherwise, so none for a file directly in the workspace folder; a
    folder node has none. *)
Theorem C6_contains_edges env files this g this' :
  (forall f, f ∈ files -> plainPath (file_path f)) ->
  buildGraph env files this = Normal g this' ->
  forall n, n ∈ graph_nodes g ->
    match node_type n with
    | function =>
        exists e m,
          incoming g n = [e] /\ m ∈ graph_nodes g /\ node_type m = file /\
          node_path m = node_path n /\ edge_source e = node_id m
    | file =>
        (inFolder env (node_path n) ->
         exists e m,
           incoming g n = [e] /\ m ∈ graph_nodes g /\
           node_type m = folder /\
           node_path m = Path.dirname (node_path n) /\
           edge_source e = node_id m) /\
        (~ inFolder env (node_path n) -> incoming g n = [])
    | folder => incoming g n = []
    end.
Proof.
  intros Hplain Hbuild n Hn.
  destruct (buildGraph_Good env files Hplain _ _ _ Hbuild)
    as (Hnodes & Hedges & [HI HL] & Hfiled).
  rewrite Hnodes in Hn.
  destruct (node_type n) eqn:Htype.
  - eapply incoming_none; eauto.
    intros m _ [(_ & ? & _)|(_ & ? & _)]; congruence.
  - pose proof (inv_paths _ _ _ HI n Hn) as Hpaths. rewrite Htype in Hpaths.
    simpl in Hpaths. destruct Hpaths as (f & Hf & Hfp). split.
    + intros (ws & Hws & Hne & Hroot).
      assert (Path.dirname (node_path n) ∈ folderSet env files) as Hd.
      { unfold folderSet. rewrite Hws, <- Hfp.
        apply folders_parent; [by apply list_elem_of_fmap_2|by rewrite Hfp..]. }
      destruct (Hfiled _ Hd) as [id Hid].
      apply (Inv_lookup env files) in Hid as (m & Hm & Hmt & Hmp & _);
        [|done].
      destruct (incoming_one env files this' g Hedges HI HL m n Hm Hn)
        as (e & He & Hs).
      { left. auto. }
      exists e, m. rewrite Hnodes. auto.
    + intros Hout. eapply incoming_none; eauto.
      intros m Hm [(Hmt & _ & Hmp)|(_ & ? & _)]; [|congruence].
      pose proof (inv_paths _ _ _ HI m Hm) as Hpaths. rewrite Hmt in Hpaths.
      simpl in Hpaths.
      apply folderSet_elements in Hpaths as (_ & Hroot & ws & Hws & Hne).
      apply Hout. exists ws. rewrite <- Hmp. auto.
  - destruct (inv_file _ _ _ HI n Hn Htype) as (m & Hm & Hmt & Hmp).
    destruct (incoming_one env files this' g Hedges HI HL m n Hm Hn)
      as (e & He & Hs).
    { right. auto. }
    exists e, m. rewrite Hnodes. auto.
Qed.

(** In the sample build the node of [foo] has its one incoming edge from
    the node of [/w/src/a.js], and that node has its one from the node of
    the folder [/w/src]. *)
Lemma C6_witness :
  exists g e m n,
    graph_nodes g !! 2 = Some n /\ node_type n = function /\
    incoming g n = [e] /\ m ∈ graph_nodes g /\ node_type m = file /\
    node_path m = node_path n /\ edge_source e = node_id m.
Proof.
  destruct (buildGraph sampleEnv sampleFiles emptyBuilder) as [g this'|]
    eqn:Hbuild; [|by vm_compute in Hbuild].
  assert (forall f, f ∈ sampleFiles -> plainPath (file_path f)) as Hplain
    by plain_paths.
  assert (exists n, graph_nodes g !! 2 = Some n /\ node_type n = function)
    as (n & Hn & Htype).
  { vm_compute in Hbuild. injection Hbuild as <- _. eexists. by split. }
  pose proof (C6_contains_edges _ _ _ _ _ Hplain Hbuild n
                (list_elem_of_lookup_2 _ _ _ Hn)) as H.
  rewrite Htype in H. destruct H as (e & m & H).
  exists g, e, m, n. tauto.
Defined.

(** ** Claim C9 *)

(** The [k]-th directory above a path: [dirname] applied [k] times. *)
Definition up (k : nat) (p : string) : string := Nat.iter k Path.dirname p.

(** The condition of the [while] loop at the directory [d]: [d] is
    neither the workspace folder nor its own parent. *)
Definition climbs (ws d : string) : Prop := d <> ws /\ d <> Path.dirname d.

Global Instance climbs_dec ws d : Decision (climbs ws d).
Proof. unfold climbs. apply _. Defined.

(** [d] is an intermediate directory of the path [p]: a directory above
    [p], with the loop condition holding at it and at every directory
    between [p] and it; so it lies below the workspace folder when [p] is
    inside the workspace, and below the root of the file system
    otherwise. *)
Definition intermediate (ws p d : string) : Prop :=
  exists k, 1 <= k /\ d = up k p /\
    forall j, 1 <= j <= k -> climbs ws (up j p).

(** The first [n] directories above [p], nearest first. *)
Definition firstUp (n : nat) (p : string) : list string :=
  (fun j => up j p) <$> seq 1 n.

(** [folders.add(d)] for each [d] in turn. *)
Definition addAll (ds folders : list string) : list string :=
  fold_left (fun s d => JS.setAdd d s) ds folders.

(** The folder nodes of a graph for the directory [d]. *)
Definition folderNodes (d : string) (ns : list NodeData) : list NodeData :=
  filter (fun n => node_type n = folder /\ node_path n = d) ns.

(** One evaluation of the loop condition. *)
Lemma ancestry_step ws fuel currentPath folders :
  ancestry (S fuel) ws currentPath folders =
  if decide (climbs ws currentPath)
  then ancestry fuel ws (Path.dirname currentPath)
         (JS.setAdd currentPath folders)
  else Some folders.
Proof.
  simpl. unfold climbs.
  destruct (decide (_ /\ _)) as [[H1 H2]|Hn].
  - by rewrite !bool_decide_eq_true_2.
  - repeat case_bool_decide; try done. by destruct Hn.
Qed.

Lemma up_dirname k p : Nat.iter k Path.dirname (Path.dirname p) = up (S k) p.
Proof. unfold up. by rewrite Nat.iter_succ_r. Qed.

Lemma firstUp_cons n p :
  firstUp (S n) p = Path.dirname p :: firstUp n (Path.dirname p).
Proof.
  unfold firstUp. change (seq 1 (S n)) with (1 :: seq 2 n).
  rewrite fmap_cons. f_equal.
  rewrite <- (fmap_S_seq 1), <- list_fmap_compose.
  apply list_fmap_ext. intros _ j _. simpl. symmetry. apply up_dirname.
Qed.

(** While the loop condition holds the loop goes on: as many evaluations
    as there are directories it holds at do not end it. *)
Lemma ancestry_goes_on ws n fuel currentPath folders :
  (forall j, j < n -> climbs ws (Nat.iter j Path.dirname currentPath)) ->
  fuel <= n -> ancestry fuel ws currentPath folders = None.
Proof.
  revert n currentPath folders.
  induction fuel as [|fuel IH]; intros n cur folders Hclimbs Hfuel; [done|].
  destruct n as [|n]; [lia|].
  rewrite ancestry_step, decide_True by (apply (Hclimbs 0); lia).
  apply (IH n); [|lia].
  intros j Hj. rewrite <- Nat.iter_succ_r. apply Hclimbs. lia.
Qed.

(** The loop ends at the first directory its condition fails at, having
    added the directories before it. *)
Lemma ancestry_stops ws n fuel currentPath folders :
  (forall j, j < n -> climbs ws (Nat.iter j Path.dirname currentPath)) ->
  ~ climbs ws (Nat.iter n Path.dirname currentPath) ->
  n < fuel ->
  ancestry fuel ws currentPath folders
  = Some (addAll ((fun j => Nat.iter j Path.dirname currentPath) <$> seq 0 n)
            folders).
Proof.
  revert fuel currentPath folders.
  induction n as [|n IH]; intros fuel cur folders Hclimbs Hstop Hfuel;
    (destruct fuel as [|fuel]; [lia|]); rewrite ancestry_step.
  - by rewrite decide_False.
  - rewrite decide_True by (apply (Hclimbs 0); lia).
    rewrite (IH fuel (Path.dirname cur)); [| | |lia].
    + change (seq 0 (S n)) with (0 :: seq 1 n). rewrite fmap_cons.
      unfold addAll. cbn [fold_left Nat.iter nat_rect]. do 2 f_equal.
      rewrite <- fmap_S_seq, <- list_fmap_compose.
      apply list_fmap_ext. intros _ j _. simpl. by rewrite <- Nat.iter_succ_r.
    + intros j Hj. rewrite <- Nat.iter_succ_r. apply Hclimbs. lia.
    + by rewrite <- Nat.iter_succ_r.
Qed.

(** A loop that has ended did so at such a directory. *)
Lemma ancestry_rounds ws fuel currentPath folders r :
  ancestry fuel ws currentPath folders = Some r ->
  exists n, n < fuel /\
    (forall j, j < n -> climbs ws (Nat.iter j Path.dirname currentPath)) /\
    ~ climbs ws (Nat.iter n Path.dirname currentPath).
Proof.
  revert currentPath folders.
  induction fuel as [|fuel IH]; intros cur folders H; [done|].
  rewrite ancestry_step in H.
  destruct (decide (climbs ws cur)) as [Hc|Hc].
  - destruct (IH _ _ H) as (n & Hn & Hclimbs & Hstop).
    exists (S n). split; [lia|]. split.
    + intros [|j] Hj; [done|]. rewrite Nat.iter_succ_r. apply Hclimbs. lia.
    + by rewrite Nat.iter_succ_r.
  - exists 0. split; [lia|]. split; [intros j Hj; lia|done].
Qed.

(** The number of directories the walk of a path adds, and the walk. *)
Lemma walk_of_path ws p :
  exists n,
    n <= Path.depth p /\
    (forall j, 1 <= j <= n -> climbs ws (up j p)) /\
    ~ climbs ws (up (S n) p) /\
    forall folders,
      ancestry n ws (Path.dirname p) folders = None /\
      (forall fuel, n < fuel ->
         ancestry fuel ws (Path.dirname p) folders
         = Some (addAll (firstUp n p) folders)) /\
      addAncestors ws folders p = addAll (firstUp n p) folders.
Proof.
  destruct (ancestry_terminates ws p []) as (r & Hr & _).
  destruct (ancestry_rounds _ _ _ _ _ Hr) as (n & Hn & Hclimbs & Hstop).
  assert (forall folders fuel, n < fuel ->
            ancestry fuel ws (Path.dirname p) folders
            = Some (addAll (firstUp n p) folders)) as Hrun.
  { intros folders fuel Hfuel.
    rewrite (ancestry_stops ws n) by done. do 2 f_equal.
    unfold firstUp. rewrite <- fmap_S_seq, <- list_fmap_compose.
    apply list_fmap_ext. intros _ j _. simpl. apply up_dirname. }
  exists n. split; [lia|]. split; [|split].
  - intros [|j] Hj; [lia|]. rewrite <- up_dirname. apply Hclimbs. lia.
  - by rewrite <- up_dirname.
  - intros folders. split; [by apply (ancestry_goes_on ws n)|].
    split; [by apply Hrun|].
    unfold addAncestors. by rewrite Hrun.
Qed.

Lemma elem_of_addAll d ds folders :
  d ∈ addAll ds folders <-> d ∈ folders \/ d ∈ ds.
Proof.
  unfold addAll. revert folders.
  induction ds as [|x ds IH]; intros folders; simpl.
  - rewrite elem_of_nil. tauto.
  - rewrite IH, elem_of_setAdd, elem_of_cons. tauto.
Qed.

Lemma addAll_length ds folders :
  length (addAll ds folders) <= length folders + length ds.
Proof.
  unfold addAll. revert folders.
  induction ds as [|x ds IH]; intros folders; simpl; [lia|].
  pose proof (IH (JS.setAdd x folders)).
  pose proof (setAdd_length x folders). lia.
Qed.

(** What the walk of a path adds are its intermediate directories. *)
Lemma elem_of_addAncestors ws folders p d :
  d ∈ addAncestors ws folders p <-> d ∈ folders \/ intermediate ws p d.
Proof.
  destruct (walk_of_path ws p) as (n & _ & Hclimbs & Hstop & Hwalk).
  destruct (Hwalk folders) as (_ & _ & ->).
  rewrite elem_of_addAll. unfold firstUp.
  rewrite list_elem_of_fmap. setoid_rewrite elem_of_seq.
  split; (intros [?|H]; [by left|right]).
  - destruct H as (k & -> & Hk). exists k. split; [lia|]. split; [done|].
    intros j Hj. apply Hclimbs. lia.
  - destruct H as (k & Hk & -> & Hall). exists k. split; [done|].
    destruct (decide (k <= n)) as [|Hgt]; [lia|].
    destruct Hstop. apply Hall. lia.
Qed.

(** The folders collected from the paths [ps] are the intermediate
    directories of these paths. *)
Lemma elem_of_collected ws ps s d :
  d ∈ fold_left (addAncestors ws) ps s <->
  d ∈ s \/ exists p, p ∈ ps /\ intermediate ws p d.
Proof.
  revert s. induction ps as [|q ps IH]; intros s; simpl.
  - split; [auto|]. intros [?|(p & Hp & _)]; [done|].
    by apply elem_of_nil in Hp.
  - rewrite IH, elem_of_addAncestors. split.
    + intros [[?|?]|(p & Hp & ?)]; [by left|right..].
      * exists q. split; [left|done].
      * exists p. split; [by right|done].
    + intros [?|(p & [->|Hp]%elem_of_cons & ?)]; [auto..|].
      right. eauto.
Qed.

(** The file pass and the edge pass add no folder node. *)
Lemma step_keeps_folders d this this' :
  step (fun t => t <> folder) any this this' ->
  folderNodes d (nodes this') = folderNodes d (nodes this).
Proof.
  intros [s k|s nd Hnd|s spec _]; simpl.
  - done.
  - destruct (addNode_cases nd s) as [(id & _ & _ & ->)|[_ ->]]; [done|].
    simpl. unfold folderNodes. rewrite filter_app, filter_cons_False.
    + by rewrite filter_nil, app_nil_r.
    + by intros [? _].
  - by rewrite addEdge_nodes.
Qed.

Lemma steps_keep_folders d this this' :
  rtc (step (fun t => t <> folder) any) this this' ->
  folderNodes d (nodes this') = folderNodes d (nodes this).
Proof.
  induction 1 as [|x y z Hxy _ IH]; [done|].
  rewrite IH. by apply step_keeps_folders.
Qed.

(** After the folder pass each collected folder has its one node, and
    there is no other folder node. *)
Lemma folder_pass_registers env files s1 d :
  buildFolderNodes env files emptyBuilder = Normal tt s1 ->
  (d ∈ folderSet env files -> exists n, folderNodes d (nodes s1) = [n]) /\
  (d ∉ folderSet env files -> folderNodes d (nodes s1) = []).
Proof.
  intros H1.
  pose proof (hoare_buildFolderNodes env files _ (foldersOnly_empty env files))
    as P1.
  rewrite H1 in P1. destruct P1 as [(HI & _ & _) Hfiled]. split.
  - intros Hd. destruct (Hfiled d Hd) as [id Hid].
    apply (Inv_lookup env files) in Hid as (m & Hm & Hmt & Hmp & _); [|done].
    exists m. apply (exactly_one node_id _ (node_id m)).
    + apply NoDup_fmap_filter, (inv_nodup _ _ _ HI).
    + intros x (Hx & Hxin)%list_elem_of_filter. f_equal.
      destruct Hx as [Hxt Hxp].
      eapply Inv_same_node; eauto; congruence.
    + apply list_elem_of_filter. auto.
  - intros Hd. destruct (folderNodes d (nodes s1)) as [|n l] eqn:Heq; [done|].
    assert (n ∈ folderNodes d (nodes s1)) as Hn by (rewrite Heq; left).
    apply list_elem_of_filter in Hn as ([Hnt Hnp] & Hn).
    pose proof (inv_paths _ _ _ HI n Hn) as Hpaths.
    rewrite decide_True in Hpaths by done. by rewrite Hnp in Hpaths.
Qed.

(** The folder nodes of a returned graph are those the folder pass
    made. *)
Lemma buildGraph_folderNodes env files this g this' d :
  buildGraph env files this = Normal g this' ->
  (d ∈ folderSet env files -> exists n, folderNodes d (graph_nodes g) = [n]) /\
  (d ∉ folderSet env files -> folderNodes d (graph_nodes g) = []).
Proof.
  intros Hbuild.
  destruct (buildGraph_footprint _ _ _ _ _ Hbuild) as (-> & _ & _).
  apply buildGraph_passes in Hbuild
    as (_ & [[-> ->]|(s1 & s2 & H1 & H2 & H3)]).
  { split; [|done]. unfold folderSet. simpl.
    destruct (workspace env); intros Hd; by apply elem_of_nil in Hd. }
  pose proof (footprint_buildFileNodes (fun t => t <> folder) any
                env files ltac:(done) ltac:(done) I s1) as S2.
  pose proof (footprint_buildEdges (fun t => t <> folder) any files I I
                s2) as S3.
  rewrite H2 in S2. rewrite H3 in S3. simpl in *.
  rewrite (steps_keep_folders d _ _ S3), (steps_keep_folders d _ _ S2).
  by apply folder_pass_registers.
Qed.

(** [C9]: for every workspace folder [ws] and every file path [p] (the
    root [/] and paths outside the workspace included) the loop that
    walks up from the directory of [p] runs [n] rounds for an [n] that is
    at most the depth of [p]: its condition holds at the first [n]
    directories above [p] and fails at the next one, which is the
    workspace folder or a directory that is its own parent; with [n]
    evaluations of the condition the loop is still running, with any
    more it has ended, and what it has added to the set of folders are
    these [n] directories, nearest first, and nothing else.  And in a
    graph built with a workspace folder, a directory has exactly one
    folder node if it is an intermediate directory of the path of some
    file record, so one however many files lie below it, and no folder
    node otherwise: none for the workspace folder, a root or anything
    above them. *)
Theorem C9_folder_walk :
  (forall ws p,
     exists n,
       n <= Path.depth p /\
       (forall j, 1 <= j <= n ->
          up j p <> ws /\ up j p <> Path.dirname (up j p)) /\
       (up (S n) p = ws \/ up (S n) p = Path.dirname (up (S n) p)) /\
       forall folders,
         ancestry n ws (Path.dirname p) folders = None /\
         (forall fuel, n < fuel ->
            ancestry fuel ws (Path.dirname p) folders
            = Some (addAll (firstUp n p) folders)) /\
         addAncestors ws folders p = addAll (firstUp n p) folders /\
         length (addAncestors ws folders p) <= length folders + n /\
         forall d, d ∈ addAncestors ws folders p <->
           d ∈ folders \/ intermediate ws p d) /\
  (forall env files this g this' ws d,
     workspace env = Some ws ->
     buildGraph env files this = Normal g this' ->
     ((exists f, f ∈ files /\ intermediate ws (file_path f) d) ->
      exists n, folderNodes d (graph_nodes g) = [n]) /\
     (~ (exists f, f ∈ files /\ intermediate ws (file_path f) d) ->
      folderNodes d (graph_nodes g) = [])).
Proof.
  split.
  - intros ws p.
    destruct (walk_of_path ws p) as (n & Hn & Hclimbs & Hstop & Hwalk).
    exists n. split; [done|]. split; [exact Hclimbs|]. split.
    { unfold climbs in Hstop.
      destruct (decide (up (S n) p = ws)); [by left|right].
      destruct (decide (up (S n) p = Path.dirname (up (S n) p))); [done|].
      by destruct Hstop. }
    intros folders. destruct (Hwalk folders) as (Hshort & Hrun & Hadd).
    split; [done|]. split; [done|]. split; [done|]. split.
    + rewrite Hadd. pose proof (addAll_length (firstUp n p) folders) as Hlen.
      unfold firstUp in Hlen at 2. by rewrite length_fmap, length_seq in Hlen.
    + intros d. apply elem_of_addAncestors.
  - intros env files this g this' ws d Hws Hbuild.
    destruct (buildGraph_folderNodes env files this g this' d Hbuild)
      as [Hin Hout].
    assert (d ∈ folderSet env files <->
            exists f, f ∈ files /\ intermediate ws (file_path f) d) as Hset.
    { unfold folderSet. rewrite Hws, elem_of_collected, elem_of_nil.
      split.
      - intros [[]|(p & (f & -> & Hf)%list_elem_of_fmap & Hp)]. eauto.
      - intros (f & Hf & Hp). right. exists (file_path f).
        split; [by apply list_elem_of_fmap_2|done]. }
    split.
    + intros Hd. by apply Hin, Hset.
    + intros Hd. apply Hout. by rewrite Hset.
Qed.

(** In the workspace [/w] the directory [/w/src] is an intermediate
    directory of [/w/src/a.js], and the sample graph has one folder node
    for it. *)
Lemma C9_witness :
  exists n,
    folderNodes "/w/src"
      (graph_nodes
         match buildGraph sampleEnv sampleFiles emptyBuilder with
         | Normal g _ => g
         | TypeError _ => {| graph_nodes := []; graph_edges := [];
                             graph_stats := payloadStats [] [] |}
         end)
    = [n].
Proof.
  destruct (buildGraph sampleEnv sampleFiles emptyBuilder) as [g this'|]
    eqn:Hbuild; [|by vm_compute in Hbuild].
  apply (proj2 C9_folder_walk sampleEnv sampleFiles emptyBuilder g this'
           "/w" "/w/src" eq_refl Hbuild).
  exists (mkFile "/w/src/a.js" [mkFunc "foo" 0 2]
            [{| imp_source := "/w/src/b"; imp_imported := "bar";
                imp_line := 0 |}]
            [{| call_name := "bar"; call_line := 1 |}]).
  split; [left|]. exists 1. split; [lia|]. split; [reflexivity|].
  intros j Hj. replace j with 1 by lia. split; by_evaluation.
Defined.

(** ** Paths that collide with function keys

    Why the statement on [contains] edges is about plain paths: when the
    path of one file is the function key of another ([/w/a:foo:0] next to
    a function [foo] on line 0 of [/w/a]), [getNodeId] hands the id of
    the first file's function node to the second file's function, two
    nodes share that id, and it is the target of two [contains] edges. *)
Example colliding_paths_share_a_function_id :
  exists g this',
    buildGraph sampleEnv collidingFiles emptyBuilder = Normal g this' /\
    node_id <$> folderNodes "/w" (graph_nodes g) = [] /\
    node_id <$> filter (fun n => node_type n = function) (graph_nodes g)
    = ["function-2"; "function-2"] /\
    edge_source <$>
      filter (fun e => edge_type e = contains /\ edge_target e = "function-2")
        (graph_edges g)
    = ["file-0"; "file-3"].
Proof.
  eexists _, _. split; [vm_compute; reflexivity|]. repeat split.
Qed.

(** ** What the keys of function nodes do in every build

    [getNodeId] looks a function up under its path, name and line,
    [addNode] files a function node under the path of its file alone.
    On plain paths the two never meet: a file gets one function node at
    most, and the ends of every [calls] edge are ids made up for the
    edge, which no node has. *)

(** Only edges whose type is among [U] are stored by steps that hand
    [addEdge] such edges. *)
Lemma step_edge_types T U this this' :
  step T U this this' ->
  (forall e, e ∈ edges this -> U (edge_type e)) ->
  forall e, e ∈ edges this' -> U (edge_type e).
Proof.
  intros [s k|s nd _|s spec HU] H e He; simpl in He.
  - auto.
  - rewrite addNode_edges in He. auto.
  - destruct (addEdge_cases spec s) as [(e' & _ & _ & Heq)|[_ Heq]];
      rewrite Heq in He; simpl in He; [auto|].
    apply elem_of_app in He as [He | ->%list_elem_of_singleton]; auto.
Qed.

Lemma steps_edge_types T U this this' :
  rtc (step T U) this this' ->
  (forall e, e ∈ edges this -> U (edge_type e)) ->
  forall e, e ∈ edges this' -> U (edge_type e).
Proof.
  induction 1 as [|x y z Hxy _ IH]; [auto|].
  intros H. apply IH. by eapply step_edge_types.
Qed.

Section FunctionKeys.

Variable env : Env.
Variable files : list FileRecord.
Hypothesis Hplain : forall f, f ∈ files -> plainPath (file_path f).

Lemma one_function_node_per_file this g this' p :
  buildGraph env files this = Normal g this' ->
  length
    (filter (fun n => node_type n = function /\ node_path n = p)
       (graph_nodes g)) <= 1.
Proof.
  intros H.
  destruct (buildGraph_Good env files Hplain _ _ _ H)
    as (-> & _ & [HI _] & _).
  destruct (at_most_one node_id
              (filter (fun n => node_type n = function /\ node_path n = p)
                 (nodes this'))
              (default "" (node_id <$> head
                 (filter (fun n => node_type n = function /\ node_path n = p)
                    (nodes this')))))
    as [->|[x ->]]; simpl; try lia.
  - apply NoDup_fmap_filter, (inv_nodup _ _ _ HI).
  - intros x Hx.
    destruct (filter _ (nodes this')) as [|y l] eqn:Heq;
      [by apply elem_of_nil in Hx|].
    simpl. f_equal.
    assert (y ∈ filter (fun n => node_type n = function /\ node_path n = p)
                  (nodes this')) as Hy by (rewrite Heq; left).
    rewrite <- Heq in Hx.
    apply list_elem_of_filter in Hx as ([Hxt Hxp] & Hxin).
    apply list_elem_of_filter in Hy as ([Hyt Hyp] & Hyin).
    eapply Inv_same_node; eauto; congruence.
Qed.

(** The nodes of the graph, which the edge pass leaves as they are. *)
Variable ns : list NodeData.

(** No node has the id. *)
Definition noNode (id : string) : Prop :=
  forall n, n ∈ ns -> node_id n <> id.

(** During the edge pass: the nodes stay, and the ends of the [calls]
    edges are ids of no node. *)
Definition callsDangle (this : GraphBuilder) : Prop :=
  Good env files this /\ nodes this = ns /\
  forall e, e ∈ edges this -> edge_type e = calls ->
    noNode (edge_source e) /\ noNode (edge_target e).

Lemma hoare_getNodeId_calls t p :
  hoare callsDangle (getNodeId t p) (fun id this => wfId id /\ callsDangle this).
Proof.
  intros this (HG & Hns & Hcalls).
  pose proof (hoare_getNodeId_Good env files t p this HG) as H.
  destruct (getNodeId_cases t p this) as [(id & _ & Heq)|[_ Heq]];
    rewrite Heq in *; destruct H as [Hid HG']; done.
Qed.

Lemma hoare_functionId f func :
  f ∈ files ->
  hoare callsDangle
    (getNodeId function
       (file_path f +:+ ":" +:+ func_name func +:+ ":" +:+
          JS.numToString (func_line func)))
    (fun id this => (wfId id /\ noNode id) /\ callsDangle this).
Proof.
  intros Hf this (HG & Hns & Hcalls).
  pose proof (hoare_getNodeId_Good env files function
                (file_path f +:+ ":" +:+ func_name func +:+ ":" +:+
                   JS.numToString (func_line func)) this HG) as H.
  destruct HG as [HI HL].
  destruct (getNodeId_cases function
              (file_path f +:+ ":" +:+ func_name func +:+ ":" +:+
                 JS.numToString (func_line func)) this)
    as [(id & Hk & _)|[_ Heq]].
  { by rewrite (function_key_absent env files Hplain) in Hk. }
  rewrite Heq in *. destruct H as [Hid HG'].
  split; [split; [done|]|by split].
  intros n Hn. rewrite <- Hns in Hn. by apply (Inv_fresh env files).
Qed.

Lemma hoare_addEdge_calls spec :
  wfId (spec_source spec) -> wfId (spec_target spec) ->
  spec_type spec = imports \/
  (spec_type spec = calls /\ noNode (spec_source spec) /\
   noNode (spec_target spec)) ->
  hoare callsDangle (addEdge spec) (fun _ => callsDangle).
Proof.
  intros Hs Ht Htype this (HG & Hns & Hcalls).
  assert (spec_type spec <> contains) as Hne.
  { destruct Htype as [->|(-> & _)]; done. }
  pose proof (hoare_addEdge_Good env files spec Hs Ht Hne this HG) as H.
  rewrite addEdge_Normal in *. split; [done|].
  split; [by rewrite addEdge_nodes|].
  intros e He Hc.
  destruct (addEdge_cases spec this) as [(e' & _ & _ & Heq)|[_ Heq]];
    rewrite Heq in He; simpl in He; [auto|].
  apply elem_of_app in He as [He | ->%list_elem_of_singleton]; [auto|].
  simpl in *. destruct Htype as [Himp|(_ & ? & ?)]; [congruence|done].
Qed.

Lemma hoare_buildImportEdge_calls known fid imp :
  wfId fid ->
  hoare callsDangle (buildImportEdge known fid imp) (fun _ => callsDangle).
Proof.
  intros Hfid this HJ. unfold buildImportEdge.
  rewrite resolveImportTarget_resolvedPath.
  destruct (resolvedPath (imp_source imp) known) as [p|]; [|done].
  unfold bind, ret.
  pose proof (hoare_getNodeId_calls file p this HJ) as H.
  destruct (getNodeId file p this) as [id s|]; [|done].
  destruct H as [Hid HJ'].
  destruct (JS.truthy id); [|done].
  apply hoare_addEdge_calls; simpl; auto.
Qed.

Lemma hoare_buildCallEdge_calls f functions func fid call :
  f ∈ files -> wfId fid -> noNode fid ->
  hoare callsDangle (buildCallEdge f functions func fid call)
    (fun _ => callsDangle).
Proof.
  intros Hf Hfid Hnone. unfold buildCallEdge.
  destruct (_ && _); [|apply hoare_ret].
  destruct (find _ functions) as [targetFunc|]; [|apply hoare_ret].
  eapply hoare_bind; [by apply hoare_functionId|].
  intros target. apply hoare_pure. intros [Ht Htnone].
  apply hoare_addEdge_calls; simpl; auto.
Qed.

Lemma hoare_buildFileEdges_calls known f :
  f ∈ files ->
  hoare callsDangle (buildFileEdges known f) (fun _ => callsDangle).
Proof.
  intros Hf. unfold buildFileEdges.
  eapply hoare_bind; [apply hoare_getNodeId_calls|].
  intros fid. apply hoare_pure. intros Hfid.
  eapply hoare_bind; [apply hoare_field|].
  intros ims. apply hoare_pure. intros _.
  apply (hoare_bind _ _ _ (fun _ => callsDangle)).
  { apply hoare_forEach. intros imp _.
    by apply hoare_buildImportEdge_calls. }
  intros ?. eapply hoare_bind; [apply hoare_field|].
  intros fs. apply hoare_pure. intros _.
  apply hoare_forEach. intros func _.
  eapply hoare_bind; [by apply hoare_functionId|].
  intros funcNodeId. apply hoare_pure. intros [Hid Hnone].
  eapply hoare_bind; [apply hoare_field|].
  intros cs. apply hoare_pure. intros _.
  apply hoare_forEach. intros call _.
  by apply hoare_buildCallEdge_calls.
Qed.

Lemma hoare_buildEdges_calls :
  hoare callsDangle (buildEdges files) (fun _ => callsDangle).
Proof.
  unfold buildEdges. apply hoare_forEach. intros f Hf.
  by apply hoare_buildFileEdges_calls.
Qed.

End FunctionKeys.

(** In every build on plain paths the ends of the [calls] edges are ids
    of no node of the graph. *)
Lemma call_edges_dangle env files this g this' :
  (forall f, f ∈ files -> plainPath (file_path f)) ->
  buildGraph env files this = Normal g this' ->
  forall e n, e ∈ graph_edges g -> edge_type e = calls ->
    n ∈ graph_nodes g ->
    node_id n <> edge_source e /\ node_id n <> edge_target e.
Proof.
  intros Hplain H e n He Hcalls Hn.
  destruct (buildGraph_footprint _ _ _ _ _ H) as (Hnodes & Hedges & _).
  rewrite Hnodes in Hn. rewrite Hedges in He.
  apply buildGraph_passes in H
    as (_ & [[_ ->]|(s1 & s2 & H1 & H2 & H3)]).
  { by apply elem_of_nil in He. }
  pose proof (hoare_buildFolderNodes env files _
                (foldersOnly_empty env files)) as P1.
  rewrite H1 in P1. destruct P1 as [G1 _]. apply foldersOnly_Good in G1.
  pose proof (hoare_buildFileNodes env files Hplain _ G1) as G2.
  rewrite H2 in G2.
  pose proof (footprint_buildFolderNodes any (fun t => t = contains)
                env files I emptyBuilder) as S1.
  pose proof (footprint_buildFileNodes any (fun t => t = contains)
                env files I I eq_refl s1) as S2.
  rewrite H1 in S1. rewrite H2 in S2. simpl in S1, S2.
  assert (forall e, e ∈ edges s2 -> edge_type e = contains) as Hcontains.
  { apply (steps_edge_types any (fun t => t = contains) emptyBuilder s2).
    - etrans; [exact S1|exact S2].
    - intros ? Hnil. by apply elem_of_nil in Hnil. }
  pose proof (hoare_buildEdges_calls env files Hplain (nodes s2) s2) as P3.
  rewrite H3 in P3. destruct P3 as (_ & Hns & Hdangle).
  { split; [done|]. split; [done|].
    intros e' He' Hc. apply Hcontains in He'. congruence. }
  rewrite Hns in Hn. destruct (Hdangle e He Hcalls) as [Hs Ht].
  split; [by apply Hs|by apply Ht].
Qed.

(** ** Claims C1 and C3 *)

(** The part of call attribution that is as described: a call outside
    the lines of the function, bounds included in the range, or to a name
    no function of the file has, adds nothing. *)
Lemma buildCallEdge_skips f functions func funcNodeId call this :
  ~ ((func_line func <= call_line call)%N /\
     (call_line call <= func_endLine func)%N) \/
  find (fun g => String.eqb (func_name g) (call_name call)) functions = None ->
  buildCallEdge f functions func funcNodeId call this = Normal tt this.
Proof.
  unfold buildCallEdge. intros [Hout|Hnone].
  - destruct (N.leb_spec (func_line func) (call_line call));
      destruct (N.leb_spec (call_line call) (func_endLine func));
      simpl; try done.
    destruct Hout. auto.
  - rewrite Hnone. by destruct (_ && _).
Qed.

(** [C1], what the code does on a file with the functions [foo] (line 0)
    and [bar] (line 3): [addNode] files every function node under the
    path of its file, finds the node of [foo] on file when [bar] comes,
    and adds nothing; the graph has the one function node [foo]. *)
Theorem C1_second_function_gets_no_node :
  exists g this',
    buildGraph sampleEnv twoFunctions emptyBuilder = Normal g this' /\
    node_label <$> filter (fun n => node_type n = function) (graph_nodes g)
    = ["foo"].
Proof. eexists _, _. split; [vm_compute; reflexivity|]. reflexivity. Qed.

(** [C3], what the code does on a function [foo] (lines 0 to 2) that
    calls [foo] on line 1: the node of [foo] has the id [function-2], and
    the one [calls] edge goes from [function-3] to [function-4], two ids
    [getNodeId] makes up on the spot because it looks function nodes up
    under a key [addNode] never files them under; neither end is the id
    of a node of the graph. *)
Theorem C3_call_edge_ends_are_no_nodes :
  exists g this',
    buildGraph sampleEnv selfCall emptyBuilder = Normal g this' /\
    node_id <$> graph_nodes g = ["file-0"; "function-2"] /\
    tripleOf <$> filter (fun e => edge_type e = calls) (graph_edges g)
    = [("function-3", "function-4", calls)].
Proof. eexists _, _. split; [vm_compute; reflexivity|]. split; reflexivity. Qed.
